(** * node-influx: response interpretation, host bookkeeping and client set-up

    A shallow embedding of the parts of the client that decide which
    endpoint a request goes to and how a reply is interpreted:

    - [Js]       the JavaScript values the code handles (JSON bodies,
                 option objects), with truthiness, property reads and
                 the [TypeError] a read on [undefined]/[null] raises;
    - [Influx]   [InfluxDB._parseCallback] and the [InfluxDB] constructor
                 (the client module);
    - [Backoff]  the [BackoffStrategy] interface used by [Host];
    - [HostM]    the [Host] class (src/host.ts);
    - [PoolM]    the pool of hosts with its dispatch loop (the module
                 [./pool] the client requires).  *)

From stdpp Require Import base option list strings pretty gmap sorting.
From Equations Require Import Equations.
From Stdlib Require Import ZArith Lia Ascii Sorting.Sorted.

Local Open Scope Z_scope.

(** ** JavaScript values *)

Module Js.

(** A JSON document as [JSON.parse] returns it, plus [undefined].
    Numbers are kept as integers: the code only compares status codes and
    tests numbers for truthiness.  An object is the ordered list of its own
    properties; a read takes the first entry for a key. *)
#[warnings="-register-all"]
Inductive JsVal : Type :=
| JUndefined
| JNull
| JBool (b : bool)
| JNum (n : Z)
| JStr (s : string)
| JArr (elems : list JsVal)
| JObj (fields : list (string * JsVal)).

(** What a failed evaluation raises. *)
Inductive Thrown : Type :=
| TypeError (msg : string).

(** Evaluation that either returns or throws. *)
Inductive Exc (A : Type) : Type :=
| Ret (a : A)
| Throw (t : Thrown).
Arguments Ret {A} a.
Arguments Throw {A} t.

#[global] Instance exc_ret : MRet Exc := λ A a, Ret a.

#[global] Instance exc_bind : MBind Exc := λ A B k m,
  match m with
  | Ret a => k a
  | Throw t => Throw t
  end.

#[global] Instance exc_fmap : FMap Exc := λ A B f m,
  match m with
  | Ret a => Ret (f a)
  | Throw t => Throw t
  end.

(** An [Error] object, identified by the argument of [new Error(arg)]. *)
Inductive JsError : Type :=
| NewError (arg : JsVal).

(** ToBoolean. *)
Definition truthy (v : JsVal) : bool :=
  match v with
  | JUndefined | JNull => false
  | JBool b => b
  | JNum n => negb (n =? 0)
  | JStr s => negb (String.eqb s "")
  | JArr _ | JObj _ => true
  end.

(** [a || b] on values. *)
Definition js_or (a b : JsVal) : JsVal := if truthy a then a else b.

Definition is_undefined (v : JsVal) : bool :=
  match v with JUndefined => true | _ => false end.

(** [v === ''] *)
Definition is_empty_string (v : JsVal) : bool :=
  match v with JStr s => String.eqb s "" | _ => false end.

(** lodash [_.isObject]: arrays and objects, not [null]. *)
Definition isObject (v : JsVal) : bool :=
  match v with JArr _ | JObj _ => true | _ => false end.

(** lodash [_.isArray]. *)
Definition isArray (v : JsVal) : bool :=
  match v with JArr _ => true | _ => false end.

Fixpoint obj_get (fields : list (string * JsVal)) (k : string) : JsVal :=
  match fields with
  | [] => JUndefined
  | (k', v) :: rest => if String.eqb k' k then v else obj_get rest k
  end.

(** [v.k] for a property name [k] that is not an array index and not a
    member of a built-in prototype (the code reads [error], [results],
    [hosts], [host], [port], [protocol], [username], [password] and
    [length]).  Reading a property of [undefined] or [null] throws. *)
Definition get_prop (v : JsVal) (k : string) : Exc JsVal :=
  match v with
  | JUndefined => Throw (TypeError ("Cannot read property '" +:+ k +:+ "' of undefined"))
  | JNull => Throw (TypeError ("Cannot read property '" +:+ k +:+ "' of null"))
  | JObj fields => Ret (obj_get fields k)
  | JArr elems =>
      if String.eqb k "length" then Ret (JNum (Z.of_nat (length elems)))
      else Ret JUndefined
  | JStr s =>
      if String.eqb k "length" then Ret (JNum (Z.of_nat (String.length s)))
      else Ret JUndefined
  | JBool _ | JNum _ => Ret JUndefined
  end.

(** The elements of an array value. *)
Definition elements (v : JsVal) : list JsVal :=
  match v with JArr elems => elems | _ => [] end.

(** [arr[i]]: out of range reads give [undefined]. *)
Definition index (elems : list JsVal) (i : nat) : JsVal :=
  default JUndefined (elems !! i).

End Js.

Import Js.

(** ** The InfluxDB client *)

Module Influx.

(** The part of the transport's response object the code reads. *)
Record Response : Type := { statusCode : Z }.

(** A node-style callback: [callback(err)] is [cb (Some err) JUndefined],
    [callback(null, x)] is [cb None x]. *)
Definition Callback (R : Type) : Type := option JsError → JsVal → R.

(** One turn of the body of the [for] loop of [_parseCallback]:
    [Some e] when the body returns through [callback(new Error(e))],
    [None] when it falls through to [++i]. *)
Definition scan_body (results : list JsVal) (i : nat) : Exc (option JsVal) :=
  if truthy (index results i) then
    e1 ← get_prop (index results i) "error";
    if truthy e1 then
      e2 ← get_prop (index results i) "error";
      if negb (is_empty_string e2) then
        e3 ← get_prop (index results i) "error";
        mret (Some e3)
      else mret None
    else mret None
  else mret None.

(** [for (var i = 0; i <= body.results.length; ++i) { ... }], entered with
    the current value of [i]. *)
Equations? scan_loop (results : list JsVal) (i : nat) : Exc (option JsVal)
  by wf (S (length results) - i)%nat lt :=
  scan_loop results i with decide (i ≤ length results)%nat => {
    | right _ := mret None;
    | left _ with scan_body results i => {
        | Throw t := Throw t;
        | Ret (Some e) := mret (Some e);
        | Ret None := scan_loop results (S i) } }.
Proof. lia. Qed.

(** Reference definition, not taken from the loop: the error an element
    of [results] carries, namely the value of its [error] property when
    that is set and not empty. *)
Definition nonempty_error (x : JsVal) : option JsVal :=
  match x with
  | JObj fields =>
      if truthy (obj_get fields "error") then Some (obj_get fields "error")
      else None
  | _ => None
  end.

(** Reference definition: scanning exactly the elements of the array, in
    order, for the first non-empty error. *)
Definition first_nonempty_error (results : list JsVal) : option JsVal :=
  head (omap nonempty_error results).

(** The function [_parseCallback (callback)] returns, applied to the
    transport's [(err, res, body)].  [None] for [callback] is an undefined
    callback; the result [None] is the bare [return]. *)
Definition _parseCallback {R} (callback : option (Callback R))
    (err : option JsError) (res : Response) (body : JsVal) : Exc (option R) :=
  match callback with
  | None => mret None
  | Some cb =>
      match err with
      | Some e => mret (Some (cb (Some e) JUndefined))
      | None =>
          if (statusCode res <? 200) || (statusCode res >=? 300) then
            e ← get_prop body "error";
            mret (Some (cb (Some (NewError (js_or e body))) JUndefined))
          else
            found ←
              (if isObject body then
                 r ← get_prop body "results";
                 if truthy r && isArray r then scan_loop (elements r) 0
                 else mret None
               else mret None);
            match found with
            | Some e => mret (Some (cb (Some (NewError e)) JUndefined))
            | None =>
                if is_undefined body then
                  mret (Some (cb (Some (NewError (JStr "body is undefined"))) JUndefined))
                else
                  r ← get_prop body "results";
                  mret (Some (cb None r))
            end
      end
  end.

(** [body.results] where the read does not throw. *)
Definition results_of (body : JsVal) : JsVal :=
  match body with
  | JObj fields => obj_get fields "results"
  | _ => JUndefined
  end.

(** The four conditions under which an error is to be reported. *)
Definition error_expected (err : option JsError) (res : Response)
    (body : JsVal) : Prop :=
  is_Some err
  ∨ statusCode res < 200 ∨ 300 ≤ statusCode res
  ∨ is_Some (first_nonempty_error (elements (results_of body)))
  ∨ body = JUndefined.

(** *** The constructor *)

(** What Node's [url.parse] returns, as far as [parseOptionsUrl] reads
    it; a missing component is [null]. *)
Record ParsedUrl : Type := {
  hostname : option string;
  port : option string;
  protocol : option string;
  auth : option string;
  pathname : option string
}.

Definition str_or_null (o : option string) : JsVal :=
  match o with Some s => JStr s | None => JNull end.

(** [s.split(c)] for a one-character separator. *)
Fixpoint split_on (c : ascii) (s : string) : list string :=
  match s with
  | EmptyString => [EmptyString]
  | String a rest =>
      if Ascii.eqb a c then EmptyString :: split_on c rest
      else match split_on c rest with
           | [] => [String a EmptyString]
           | w :: ws => String a w :: ws
           end
  end.

(** [s.slice(1)] *)
Definition slice1 (s : string) : string :=
  match s with EmptyString => EmptyString | String _ rest => rest end.

Definition obj_has (fields : list (string * JsVal)) (k : string) : bool :=
  existsb (λ kv, String.eqb kv.1 k) fields.

(** [o[k] = v]: overwrite in place, or add the property at the end. *)
Fixpoint obj_set (fields : list (string * JsVal)) (k : string) (v : JsVal)
  : list (string * JsVal) :=
  match fields with
  | [] => [(k, v)]
  | (k', v') :: rest =>
      if String.eqb k' k then (k, v) :: rest else (k', v') :: obj_set rest k v
  end.

(** The enumerable property names lodash iterates for a source value:
    none for [null], [undefined] and primitives. *)
Definition keys_of (v : JsVal) : list string :=
  match v with
  | JObj fields => fields.*1
  | JArr elems => pretty <$> seq 0 (length elems)
  | _ => []
  end.

(** [v[k]] for a key produced by [keys_of v]. *)
Definition read_key (v : JsVal) (k : string) : JsVal :=
  match v with
  | JObj fields => obj_get fields k
  | JArr elems =>
      default JUndefined
        (snd <$> find (λ ie, String.eqb (pretty ie.1) k) (imap pair elems))
  | _ => JUndefined
  end.

(** lodash [_.assign(dest, src)]. *)
Definition assign (dest : list (string * JsVal)) (src : JsVal)
  : list (string * JsVal) :=
  foldl (λ d k, obj_set d k (read_key src k)) dest (keys_of src).

(** One source of lodash [_.defaults(dest, src)]: a property of [src] is
    copied when [dest] resolves it to [undefined]. *)
Definition defaults (dest : list (string * JsVal)) (src : JsVal)
  : list (string * JsVal) :=
  foldl (λ d k, if is_undefined (obj_get d k) then obj_set d k (read_key src k) else d)
        dest (keys_of src).

(** lodash [_.pick(o, keys)]: the listed properties that [o] has. *)
Definition pick (fields : list (string * JsVal)) (ks : list string)
  : list (string * JsVal) :=
  omap (λ k, if obj_has fields k then Some (k, obj_get fields k) else None) ks.

Definition defaultHost : list (string * JsVal) :=
  [("host", JStr "127.0.0.1"); ("protocol", JStr "http"); ("port", JNum 8086)].

(** [defaultOptions]; [Object.freeze] is shallow, so its [hosts] array is
    one mutable array shared by every constructor call: [shared] is its
    current content. *)
Definition defaultOptions (shared : list JsVal) : list (string * JsVal) :=
  assign [("hosts", JArr shared); ("timePrecision", JStr "ms");
          ("username", JStr "root"); ("password", JStr "root")]
         (JObj defaultHost).

(** An [InfluxDB] instance after construction. *)
Record InfluxDB (P : Type) : Type := {
  _options : list (string * JsVal);
  _pool : P
}.
Arguments _options {P} i.
Arguments _pool {P} i.

(** [v === 0] *)
Definition is_zero (v : JsVal) : bool :=
  match v with JNum n => n =? 0 | _ => false end.

(** The shared default array is empty or holds one descriptor without
    [host] and [port]. *)
Definition seeded_only (shared : list JsVal) : Prop :=
  shared = []
  ∨ ∃ d, shared = [JObj d]
         ∧ obj_get d "host" = JUndefined ∧ obj_get d "port" = JUndefined.

Section Constructor.
(** The pool class of [./pool], used through [new Pool (options.pool)]
    and [addHost (host, port, protocol)]. *)
Context {P : Type}.
Variable new_pool : JsVal → P.
Variable pool_addHost : JsVal → JsVal → JsVal → P → P.
(** Node's [url.parse]. *)
Variable url_parse : string → ParsedUrl.

Definition parseOptionsUrl (addr : string) : Exc (list (string * JsVal)) :=
  let parsed := url_parse addr in
  let options :=
    [("host", str_or_null (hostname parsed));
     ("port", str_or_null (port parsed));
     ("protocol", str_or_null (protocol parsed))] in
  let options :=
    if truthy (str_or_null (auth parsed)) then
      let authSplit := JStr <$> split_on ":" (default "" (auth parsed)) in
      obj_set (obj_set options "username" (index authSplit 0))
              "password" (index authSplit 1)
    else options in
  len ← get_prop (str_or_null (pathname parsed)) "length";
  match len with
  | JNum n =>
      if 1 <? n
      then mret (obj_set options "database"
                   (JStr (slice1 (default "" (pathname parsed)))))
      else mret options
  | _ => mret options
  end.

(** The body of [options.hosts.forEach (host => ...)] for one element. *)
Definition register_host (host : JsVal) (pool : P) : Exc P :=
  host ← (match host with
          | JStr addr => JObj <$> parseOptionsUrl addr
          | _ => mret host
          end);
  h ← get_prop host "host";
  p ← get_prop host "port";
  pr ← get_prop host "protocol";
  mret (pool_addHost (js_or h (obj_get defaultHost "host"))
                     (js_or p (obj_get defaultHost "port"))
                     (js_or pr (obj_get defaultHost "protocol"))
                     pool).

Fixpoint register_hosts (hosts : list JsVal) (pool : P) : Exc P :=
  match hosts with
  | [] => mret pool
  | host :: rest => pool ← register_host host pool; register_hosts rest pool
  end.

(** [new InfluxDB (options)], run while the shared default [hosts]
    array holds [shared].  Returns that array's content afterwards and
    the instance, or what the constructor threw. *)
Definition constructor (shared : list JsVal) (options : JsVal)
  : list JsVal * Exc (InfluxDB P) :=
  (* 1. a URI is parsed into an options object *)
  match (match options with
         | JStr addr => JObj <$> parseOptionsUrl addr
         | _ => mret options
         end) with
  | Throw t => (shared, Throw t)
  | Ret options =>
      (* 2. defaults *)
      let given := defaults [] options in
      let from_default := is_undefined (obj_get given "hosts") in
      let options := defaults given (JObj (defaultOptions shared)) in
      let hosts := obj_get options "hosts" in
      match get_prop hosts "length" with
      | Throw t => (shared, Throw t)
      | Ret len =>
          let pushed :=
            if is_zero len then
              match hosts with
              | JArr elems =>
                  Ret (JArr (elems ++ [JObj (pick options ["username"; "password"; "protocol"])]))
              | _ => Throw (TypeError "options.hosts.push is not a function")
              end
            else Ret hosts in
          match pushed with
          | Throw t => (shared, Throw t)
          | Ret hosts =>
              let shared := if from_default then elements hosts else shared in
              let options := obj_set options "hosts" hosts in
              (* 3. the pool *)
              (shared,
               match hosts with
               | JArr elems =>
                   pool ← register_hosts elems (new_pool (obj_get options "pool"));
                   mret {| _options := options; _pool := pool |}
               | _ => Throw (TypeError "options.hosts.forEach is not a function")
               end)
          end
      end
  end.

(** The contents the shared default [hosts] array can have: empty when
    the module is loaded, then whatever a constructor call leaves. *)
Inductive SharedReachable : list JsVal → Prop :=
| shared_initial : SharedReachable []
| shared_after (shared : list JsVal) (options : JsVal) :
    SharedReachable shared →
    SharedReachable (constructor shared options).1.
End Constructor.

End Influx.

(** ** Backoff strategies *)

Module Backoff.

(** The interface [Host] programs against (the type [BackoffStrategy] of
    src/host.ts, whose declaration is not among the sources): [next()]
    returns a delay in milliseconds and advances the strategy's state,
    [reset()] restores it.  [initial] is the state a strategy has when it
    is constructed. *)
Class BackoffStrategy (St : Type) : Type := {
  initial : St;
  next : St → Z * St;
  reset : St → St
}.

(** The delay [next()] returns on a strategy that has just been built. *)
Definition baseline {St} `{BackoffStrategy St} : Z := (next initial).1.

(** The delays of [n] consecutive [next()] calls, starting in state [s]. *)
Fixpoint delays {St} `{BackoffStrategy St} (n : nat) (s : St) : list Z :=
  match n with
  | O => []
  | S n' => (next s).1 :: delays n' (next s).2
  end.

(** Modelled from the spec: the Constant variant of BackoffStrategy (the
    backoff classes are not among the sources).  [next()] always returns
    the same fixed delay; [reset()] is a no-op. *)
Definition Constant (delay : Z) : BackoffStrategy unit := {|
  initial := tt;
  next := λ s, (delay, s);
  reset := λ s, s
|}.

(** Parameters of the exponential variant. *)
Record ExponentialConfig : Type := {
  base : Z;
  multiplier : Z;
  cap : Z
}.

(** Modelled from the spec: the computed delay of the Exponential variant
    at a given attempt count, [min(base * multiplier^attempt, cap)]. *)
Definition exp_delay (cfg : ExponentialConfig) (attempt : nat) : Z :=
  Z.min (base cfg * multiplier cfg ^ Z.of_nat attempt) (cap cfg).

(** Modelled from the spec: the attempt count after a [next()], which
    saturates (growth is clamped) once the cap is reached. *)
Definition exp_advance (cfg : ExponentialConfig) (attempt : nat) : nat :=
  if cap cfg <=? base cfg * multiplier cfg ^ Z.of_nat attempt
  then attempt else S attempt.

(** Modelled from the spec: a delay is never less than one unit (never
    immediate re-admission on failure). *)
Definition one_unit_at_least (delay : Z) : Z := Z.max 1 delay.

(** Modelled from the spec: the Exponential variant of BackoffStrategy
    (the backoff classes are not among the sources) with its optional
    jitter switched off; with the jitter on it is [JitteredExponential]
    below.  The state is the attempt count.  [next()] returns
    [min(base * multiplier^attempt, cap)], one unit at least, and
    increments [attempt], which saturates once the cap is reached;
    [reset()] sets [attempt = 0]. *)
Definition Exponential (cfg : ExponentialConfig) : BackoffStrategy nat := {|
  initial := O;
  next := λ attempt,
    (one_unit_at_least (exp_delay cfg attempt), exp_advance cfg attempt);
  reset := λ _, O
|}.

(** Modelled from the spec: the jitter of the Exponential variant, a
    uniform random scaling within a fixed band.  The band is given in
    percent ([lowest := 80] and [highest := 120] for 0.8x to 1.2x);
    [drawn k] is what the random source yields at the [k]-th draw made
    on it. *)
Record Jitter : Type := {
  lowest : Z;
  highest : Z;
  drawn : nat → Z
}.

(** The scaling factor of the [k]-th draw, in percent, within the band. *)
Definition factor (j : Jitter) (k : nat) : Z :=
  Z.max (lowest j) (Z.min (highest j) (drawn j k)).

(** The computed delay scaled by a factor, rounded down to a whole unit. *)
Definition scaled (delay percent : Z) : Z := delay * percent / 100.

(** Modelled from the spec: the Exponential variant with its jitter
    switched on.  The state is the attempt count and the number of
    draws made on the random source so far.  [next()] applies the
    jitter to the computed delay [min(base * multiplier^attempt, cap)],
    returns the outcome, one unit at least, and increments [attempt] as
    without jitter; [reset()] sets [attempt = 0] and leaves the random
    source where it is. *)
Definition JitteredExponential (cfg : ExponentialConfig) (j : Jitter)
  : BackoffStrategy (nat * nat) := {|
  initial := (O, O);
  next := λ s,
    (one_unit_at_least (scaled (exp_delay cfg s.1) (factor j s.2)),
     (exp_advance cfg s.1, S s.2));
  reset := λ s, (O, s.2)
|}.

End Backoff.

Import Backoff.

(** ** Host (src/host.ts) *)

Module HostM.

(** [constructor (public url: string, private backoff: BackoffStrategy)];
    [backoff] holds the state of the host's own strategy object. *)
Record Host (St : Type) : Type := {
  url : string;
  backoff : St
}.
Arguments url {St} h.
Arguments backoff {St} h.

Section Methods.
Context {St : Type} `{BackoffStrategy St}.

(** [fail () { return this.backoff.next(); }]: the returned delay and
    the host afterwards. *)
Definition fail (h : Host St) : Z * Host St :=
  let '(delay, b) := next (backoff h) in
  (delay, {| url := url h; backoff := b |}).

(** [success () { this.backoff.reset(); }] *)
Definition success (h : Host St) : Host St :=
  {| url := url h; backoff := reset (backoff h) |}.

(** The calls a host can receive after construction. *)
Inductive HostOp : Type := OpFail | OpSuccess.

Definition apply_op (h : Host St) (op : HostOp) : Host St :=
  match op with
  | OpFail => (fail h).2
  | OpSuccess => success h
  end.

Definition run_ops (ops : list HostOp) (h : Host St) : Host St :=
  foldl apply_op h ops.
End Methods.

End HostM.

Import HostM.

(** ** Pool *)

Module PoolM.

(** Modelled from the spec: the errors a pool operation surfaces to its
    caller (section 7); [AllHostsFailedError] carries the last per-host
    error. *)
Inductive PoolError (E : Type) : Type :=
| DuplicateHostError
| NoHostsAvailableError
| AllHostsFailedError (last : E)
| HostNotFoundError.
Arguments DuplicateHostError {E}.
Arguments NoHostsAvailableError {E}.
Arguments AllHostsFailedError {E} last.
Arguments HostNotFoundError {E}.

(** Modelled from the spec: what the Transport reports for one request
    against one host, a status code and body or a transport error. *)
Inductive Outcome (Body Failure : Type) : Type :=
| Responded (status : Z) (body : Body)
| Failed (e : Failure).
Arguments Responded {Body Failure} status body.
Arguments Failed {Body Failure} e.

(** Modelled from the spec: the state of a Pool (the module [./pool] is
    not among the sources).  [hosts] is the store of Host objects, keyed
    by object identity; [available] (in round-robin order) and [disabled]
    (each entry with its scheduled re-admission time) hold references
    into it; [cursor] is the selection cursor. *)
Record Pool (St : Type) : Type := {
  hosts : gmap nat (Host St);
  available : list nat;
  disabled : list (nat * Z);
  cursor : nat
}.
Arguments hosts {St} p.
Arguments available {St} p.
Arguments disabled {St} p.
Arguments cursor {St} p.

Section Operations.
Context {St : Type} `{BackoffStrategy St}.
Context {Descriptor Request Body Failure : Type}.
(** The base URL (scheme, hostname, port) of a host descriptor. *)
Variable descriptor_url : Descriptor → string.
(** The injected transport. *)
Variable transport : string → Request → Outcome Body Failure.
(** The configured failure range of status codes, bounds included. *)
Variable failureStatusRange : Z * Z.

Definition set_hosts (m : gmap nat (Host St)) (p : Pool St) : Pool St :=
  {| hosts := m; available := available p; disabled := disabled p;
     cursor := cursor p |}.

(** [this.fail()] on the Host object [this] of the store. *)
Definition call_fail (p : Pool St) (this : nat) : option (Z * Pool St) :=
  h ← hosts p !! this;
  Some ((fail h).1, set_hosts (<[this := (fail h).2]> (hosts p)) p).

(** [this.success()] on the Host object [this] of the store. *)
Definition call_success (p : Pool St) (this : nat) : option (Pool St) :=
  h ← hosts p !! this;
  Some (set_hosts (<[this := success h]> (hosts p)) p).

Definition empty_pool : Pool St :=
  {| hosts := ∅; available := []; disabled := []; cursor := O |}.

(** The URLs of the hosts held in either collection. *)
Definition known_urls (p : Pool St) : list string :=
  omap (λ id, url <$> hosts p !! id) (available p ++ (disabled p).*1).

(** Modelled from the spec: [addHost(descriptor)] registers a new Host
    in [available] and rejects a URL that either collection holds. *)
Definition addHost (d : Descriptor) (p : Pool St) : PoolError Failure + Pool St :=
  if decide (descriptor_url d ∈ known_urls p) then inl DuplicateHostError
  else
    let id := fresh (dom (hosts p)) in
    inr {| hosts := <[id := {| url := descriptor_url d; backoff := initial |}]> (hosts p);
           available := available p ++ [id];
           disabled := disabled p;
           cursor := cursor p |}.

(** Registration of a list of descriptors, stopping at the first error. *)
Fixpoint addHosts (ds : list Descriptor) (p : Pool St) : PoolError Failure + Pool St :=
  match ds with
  | [] => inr p
  | d :: ds' =>
      match addHost d p with
      | inl e => inl e
      | inr p' => addHosts ds' p'
      end
  end.

(** Modelled from the spec: [reclaim()] moves back to [available] every
    disabled Host whose scheduled re-admission time has passed. *)
Definition reclaim (now : Z) (p : Pool St) : Pool St :=
  {| hosts := hosts p;
     available := available p ++ (filter (λ e, e.2 ≤ now) (disabled p)).*1;
     disabled := filter (λ e, ¬ e.2 ≤ now) (disabled p);
     cursor := cursor p |}.

(** Modelled from the spec: step 2 of dispatch, round-robin selection:
    the host under the cursor, the cursor advanced modulo the current
    size of [available]. *)
Definition select (p : Pool St) : option (nat * Pool St) :=
  let n := length (available p) in
  id ← available p !! (cursor p mod n)%nat;
  Some (id, {| hosts := hosts p; available := available p;
               disabled := disabled p;
               cursor := (S (cursor p mod n) mod n)%nat |}).

(** Modelled from the spec: step 4 of dispatch, the move of a host from
    [available] to [disabled], stamped with its re-admission time. *)
Definition disable (id : nat) (until : Z) (p : Pool St) : Pool St :=
  {| hosts := hosts p;
     available := filter (λ x, x ≠ id) (available p);
     disabled := disabled p ++ [(id, until)];
     cursor := cursor p |}.

(** Modelled from the spec: step 4's test.  A transport failure, or a
    status in the configured failure range, counts against the host;
    anything else is the result. *)
Definition classify (o : Outcome Body Failure)
  : Outcome Body Failure + (Z * Body) :=
  match o with
  | Failed e => inl (Failed e)
  | Responded status body =>
      if bool_decide (failureStatusRange.1 ≤ status ≤ failureStatusRange.2)
      then inl (Responded status body)
      else inr (status, body)
  end.

(** What a dispatch call returns, next to the pool afterwards and the
    hosts it tried, in order. *)
Definition Result : Type := PoolError (Outcome Body Failure) + (Z * Body).

(** Modelled from the spec: the algorithm of [dispatch] at time [now],
    with [remaining] attempts left: reclaim, then steps 1 to 6.  The
    result is [None] only if a collection refers to a host that is not
    in the store. *)
Fixpoint attempt (now : Z) (req : Request) (remaining : nat)
    (p : Pool St) (tried : list nat) : option (Result * Pool St * list nat) :=
  let p1 := reclaim now p in
  match available p1 with
  | [] => Some (inl NoHostsAvailableError, p1, tried)
  | _ :: _ =>
      '(id, p2) ← select p1;
      h ← hosts p2 !! id;
      match classify (transport (url h) req) with
      | inr response =>
          p3 ← call_success p2 id;
          Some (inr response, p3, tried ++ [id])
      | inl e =>
          '(delay, p3) ← call_fail p2 id;
          let p4 := disable id (now + delay) p3 in
          match remaining with
          | S (S _ as r) => attempt now req r p4 (tried ++ [id])
          | _ => Some (inl (AllHostsFailedError e), p4, tried ++ [id])
          end
      end
  end.

(** Modelled from the spec: [dispatch], its attempts counter seeded to
    the number of hosts configured. *)
Definition dispatch (now : Z) (req : Request) (p : Pool St)
  : option (Result * Pool St * list nat) :=
  attempt now req (length (available p) + length (disabled p)) p [].

(** A sequence of dispatch calls, each at its own time. *)
Fixpoint dispatch_all (calls : list (Z * Request)) (p : Pool St)
  : option (list (Result * list nat) * Pool St) :=
  match calls with
  | [] => Some ([], p)
  | (now, req) :: rest =>
      '(r, p1, tried) ← dispatch now req p;
      '(rs, p2) ← dispatch_all rest p1;
      Some ((r, tried) :: rs, p2)
  end.

(** The hosts selected by a sequence of dispatch calls, in order. *)
Definition selected (rs : list (Result * list nat)) : list nat :=
  concat (rs.*2).

(** Every reference held in [available] points into the store, and
    no host is held twice. *)
Definition pool_ok (p : Pool St) : Prop :=
  NoDup (available p) ∧ ∀ id, id ∈ available p → is_Some (hosts p !! id).

(** Every host of the store answers every request with a result. *)
Definition healthy (p : Pool St) : Prop :=
  ∀ id h req, hosts p !! id = Some h →
    ∃ r, classify (transport (url h) req) = inr r.

(** Modelled from the spec: [getHostsAvailable()] and
    [getHostsDisabled()] return host identities only. *)
Definition getHostsAvailable (p : Pool St) : list string :=
  omap (λ id, url <$> hosts p !! id) (available p).

Definition getHostsDisabled (p : Pool St) : list string :=
  omap (λ id, url <$> hosts p !! id) (disabled p).*1.
End Operations.

End PoolM.

Import PoolM.

(** ** Example data *)

Module Examples.

(** A concrete exponential schedule: 100 ms doubling up to one second. *)
Definition example_config : ExponentialConfig :=
  {| base := 100; multiplier := 2; cap := 1000 |}.




(** A host that has failed three times on the example schedule. *)
Definition example_host : Host nat :=
  {| url := "http://127.0.0.1:8086"; backoff := 3%nat |}.

(** Three hosts, all available, the cursor on the second. *)
Definition example_hosts : gmap nat (Host nat) :=
  list_to_map
    [(0%nat, {| url := "http://a:8086"; backoff := 0%nat |});
     (1%nat, {| url := "http://b:8086"; backoff := 2%nat |});
     (2%nat, {| url := "http://c:8086"; backoff := 0%nat |})].

Definition example_pool : Pool nat :=
  {| hosts := example_hosts; available := [0; 1; 2]%nat; disabled := [];
     cursor := 1 |}.

(** The same hosts, all of them quarantined. *)
Definition example_disabled_pool : Pool nat :=
  {| hosts := example_hosts; available := [];
     disabled := [(0%nat, 500); (1%nat, 700); (2%nat, 900)]; cursor := 1 |}.

(** The same hosts, all of them quarantined, the first one until a time
    that has passed at time 100. *)
Definition example_due_pool : Pool nat :=
  {| hosts := example_hosts; available := [];
     disabled := [(0%nat, 50); (1%nat, 700); (2%nat, 900)]; cursor := 1 |}.

(** A transport every host answers through. *)
Definition example_transport (u : string) (req : unit) : Outcome string string :=
  Responded 200 "ok".

Definition example_range : Z * Z := (500, 599).

Definition example_calls : list (Z * unit) := [(0, ()); (5, ()); (9, ())].

(** Caller options with a top-level host and port and no [hosts]. *)
Definition example_options : list (string * JsVal) :=
  [("host", JStr "10.0.0.1"); ("port", JNum 9999)].

(** A pool that records the [addHost] calls it receives. *)
Definition example_new_pool (options : JsVal) : list (JsVal * JsVal * JsVal) := [].

Definition example_addHost (host port protocol : JsVal)
    (pool : list (JsVal * JsVal * JsVal)) : list (JsVal * JsVal * JsVal) :=
  pool ++ [(host, port, protocol)].

Definition example_url_parse (addr : string) : Influx.ParsedUrl :=
  {| Influx.hostname := Some "example.com"; Influx.port := Some "9000";
     Influx.protocol := Some "https:"; Influx.auth := Some "user:secret";
     Influx.pathname := Some "/metrics" |}.

(** The spec's pool behind the constructor: descriptors are the triples
    [addHost] receives, a host's URL is protocol://host:port. *)
Definition example_text (v : JsVal) : string :=
  match v with
  | JStr s => s
  | JNum n => pretty n
  | _ => ""
  end.

Definition example_descriptor_url (d : JsVal * JsVal * JsVal) : string :=
  example_text d.2 +:+ "://" +:+ example_text d.1.1 +:+ ":" +:+ example_text d.1.2.

Definition example_spec_new_pool (options : JsVal)
  : PoolError unit + Pool nat :=
  inr empty_pool.

Definition example_spec_addHost (host port protocol : JsVal)
    (pool : PoolError unit + Pool nat) : PoolError unit + Pool nat :=
  match pool with
  | inl e => inl e
  | inr p =>
      addHost (H := Exponential example_config) example_descriptor_url
        (host, port, protocol) p
  end.

End Examples.

Import Examples.

(** ** Further parts of the client *)

Module UrlParts.

(** Reference definitions for the credentials of a URL: the part of [s]
    before its first colon, and what follows that colon, if there is one. *)
Fixpoint before_colon (s : string) : string :=
  match s with
  | EmptyString => EmptyString
  | String a rest =>
      if Ascii.eqb a ":" then EmptyString else String a (before_colon rest)
  end.

Fixpoint after_colon (s : string) : option string :=
  match s with
  | EmptyString => None
  | String a rest => if Ascii.eqb a ":" then Some rest else after_colon rest
  end.

End UrlParts.

Import UrlParts.

Module HostRuns.

Section Runs.
Context {St : Type} `{BackoffStrategy St}.

(** [n] consecutive [fail()] calls on a host: the delays returned, in
    order, and the host afterwards. *)
Fixpoint fails (n : nat) (h : Host St) : list Z * Host St :=
  match n with
  | O => ([], h)
  | S n' =>
      let '(delay, h1) := fail h in
      let '(rest, h2) := fails n' h1 in
      (delay :: rest, h2)
  end.
End Runs.

End HostRuns.

Import HostRuns.

Module ConstructorViews.

Section Views.
Context {P : Type}.
Variable pool_addHost : JsVal → JsVal → JsVal → P → P.

(** Reference definition: the registration of a host descriptor given
    as an object, each missing or falsy field replaced by its default. *)
Definition register_descriptor (pool : P) (fields : list (string * JsVal)) : P :=
  pool_addHost (js_or (obj_get fields "host") (JStr "127.0.0.1"))
               (js_or (obj_get fields "port") (JNum 8086))
               (js_or (obj_get fields "protocol") (JStr "http"))
               pool.
End Views.

End ConstructorViews.

Import ConstructorViews.

(** ** Requests and replies *)

Module Requests.

Import Influx.

(** The outcome of code that uses lodash on arbitrary values: a value,
    an exception, or [Outside] when the input leaves the shapes for which
    the library's behaviour is written out here (a non-empty string used
    as a collection, a key that is not a string, an object with a
    [length] used as a list of keys or values). *)
Inductive Run (A : Type) : Type :=
| Value (a : A)
| Raised (t : Thrown)
| Outside.
Arguments Value {A} a.
Arguments Raised {A} t.
Arguments Outside {A}.

#[global] Instance run_ret : MRet Run := λ A a, Value a.

#[global] Instance run_bind : MBind Run := λ A B k m,
  match m with
  | Value a => k a
  | Raised t => Raised t
  | Outside => Outside
  end.

Definition of_exc {A} (e : Exc A) : Run A :=
  match e with Ret a => Value a | Throw t => Raised t end.

Definition of_option {A} (o : option A) : Run A :=
  match o with Some a => Value a | None => Outside end.

(** Left-to-right evaluation of [f] on the elements of a list. *)
Fixpoint map_run {A B} (f : A → Run B) (l : list A) : Run (list B) :=
  match l with
  | [] => mret []
  | x :: rest => y ← f x; ys ← map_run f rest; mret (y :: ys)
  end.

(** The properties lodash's [keysIn] enumerates on a source, with their
    values, in enumeration order. *)
Definition entries_in (v : JsVal) : option (list (string * JsVal)) :=
  match v with
  | JObj fields => Some ((λ k, (k, obj_get fields k)) <$> fields.*1)
  | JArr elems => Some (imap (λ i x, (pretty i, x)) elems)
  | JStr s => if String.eqb s "" then Some [] else None
  | _ => Some []
  end.

(** lodash [_.extend(dest, src)] ([assignIn]) for one source: a falsy
    source is skipped, every enumerated property of another one is
    assigned, an undefined value included. *)
Definition extend (dest : list (string * JsVal)) (src : JsVal)
  : option (list (string * JsVal)) :=
  if truthy src then
    entries ← entries_in src;
    Some (foldl (λ d kv, obj_set d kv.1 kv.2) dest entries)
  else Some dest.

(** The values lodash's [_.each] and [_.map] visit on a collection, in
    order: none for null, undefined, booleans and numbers; the elements of
    an array; for an object, the indexed properties below [length] when
    that is a valid length, and the own properties otherwise. *)
Definition collection_values (v : JsVal) : option (list JsVal) :=
  match v with
  | JUndefined | JNull | JBool _ | JNum _ => Some []
  | JArr elems => Some elems
  | JStr s => if String.eqb s "" then Some [] else None
  | JObj fields =>
      match obj_get fields "length" with
      | JNum n =>
          if (0 <=? n) && (n <=? 9007199254740991)
          then Some ((λ i, obj_get fields (pretty i)) <$> seq 0 (Z.to_nat n))
          else Some (obj_get fields <$> fields.*1)
      | _ => Some (obj_get fields <$> fields.*1)
      end
  end.

(** [v[i]] for an index [i]. *)
Definition elem (v : JsVal) (i : nat) : Run JsVal :=
  match v with
  | JUndefined =>
      Raised (TypeError ("Cannot read property '" +:+ pretty i +:+ "' of undefined"))
  | JNull =>
      Raised (TypeError ("Cannot read property '" +:+ pretty i +:+ "' of null"))
  | JArr elems => Value (index elems i)
  | JObj fields => Value (obj_get fields (pretty i))
  | JStr s => if String.eqb s "" then Value JUndefined else Outside
  | JBool _ | JNum _ => Value JUndefined
  end.

Definition as_key (v : JsVal) : option string :=
  match v with JStr s => Some s | _ => None end.

(** The keys [props[0]], ..., [props[props.length - 1]] that
    [_.zipObject (props, values)] assigns, after [props || []]. *)
Definition zip_keys (props : JsVal) : option (list string) :=
  if truthy props then
    match props with
    | JArr elems => mapM as_key elems
    | JObj fields =>
        if is_undefined (obj_get fields "length") then Some [] else None
    | JStr _ => None
    | _ => Some []
    end
  else Some [].

(** [index < values.length ? values[index] : undefined], after
    [values || []]. *)
Definition zip_values (values : JsVal) : option (nat → JsVal) :=
  if truthy values then
    match values with
    | JArr elems => Some (index elems)
    | JObj fields =>
        if is_undefined (obj_get fields "length")
        then Some (λ _, JUndefined) else None
    | JStr _ => None
    | _ => Some (λ _, JUndefined)
    end
  else Some (λ _, JUndefined).

(** lodash [_.zipObject (props, values)]. *)
Definition zipObject (props values : JsVal) : option (list (string * JsVal)) :=
  keys ← zip_keys props;
  value ← zip_values values;
  Some (foldl (λ o ik, obj_set o ik.2 (value ik.1)) [] (imap pair keys)).

(** The iteratee of [_.map (series.values, ...)]: one row. *)
Definition row_of (series values : JsVal) : Run JsVal :=
  columns ← of_exc (get_prop series "columns");
  o ← of_option (zipObject columns values);
  tags ← of_exc (get_prop series "tags");
  row ← of_option (extend o tags);
  mret (JObj row).

(** The rows of one series. *)
Definition series_rows (series : JsVal) : Run (list JsVal) :=
  values ← of_exc (get_prop series "values");
  rows ← of_option (collection_values values);
  map_run (row_of series) rows.

(** The iteratee of [_.each (response, ...)]: the value pushed for one
    result. *)
Definition result_rows (result : JsVal) : Run JsVal :=
  series ← of_exc (get_prop result "series");
  if truthy series then
    all ← of_option (collection_values series);
    rows ← map_run series_rows all;
    mret (JArr (concat rows))
  else mret (JArr []).

(** [_parseResults (response, callback)] *)
Definition _parseResults {R} (response : JsVal) (callback : Callback R) : Run R :=
  results ← of_option (collection_values response);
  parsed ← map_run result_rows results;
  mret (callback None (JArr parsed)).

(** An argument that is either a value or a callback function. *)
Inductive Arg (R : Type) : Type :=
| AVal (v : JsVal)
| AFn (cb : Callback R).
Arguments AVal {R} v.
Arguments AFn {R} cb.

(** The call [this._pool.get ({ url, json }, handler)]. *)
Record GetCall (R : Type) : Type := {
  get_url : string;
  get_json : bool;
  get_reply : option JsError → Response → JsVal → Exc (option R)
}.
Arguments get_url {R} g.
Arguments get_json {R} g.
Arguments get_reply {R} g.

Section Client.
(** Node's [url.format ({ pathname, query })]. *)
Variable url_format : string → list (string * JsVal) → string.
(** [this._options] *)
Variable this_options : list (string * JsVal).

(** One of the three [if (this._options.X && !queryObj.y) queryObj.y =
    this._options.X] statements of [_url]. *)
Definition fill_from_options (option_name key : string)
    (queryObj : list (string * JsVal)) : list (string * JsVal) :=
  if truthy (obj_get this_options option_name)
     && negb (truthy (obj_get queryObj key))
  then obj_set queryObj key (obj_get this_options option_name)
  else queryObj.

(** The query object [_url] hands to [url.format]. *)
Definition _url_query (options query : JsVal) : option (list (string * JsVal)) :=
  queryObj ← extend [("u", obj_get this_options "username");
                     ("p", obj_get this_options "password")] options;
  queryObj ← extend queryObj query;
  Some (fill_from_options "retentionPolicy" "rp"
          (fill_from_options "database" "db"
             (fill_from_options "timePrecision" "precision" queryObj))).

Definition _url (endpoint : string) (options query : JsVal) : option string :=
  url_format endpoint <$> _url_query options query.

Definition _queryDB {R} (query : JsVal) (options : Arg R)
    (callback : option (Callback R)) : option (GetCall R) :=
  let '(options, callback) :=
    match options with
    | AFn cb => (JUndefined, Some cb)
    | AVal v => (v, callback)
    end in
  url ← _url "query" options (JObj [("q", query)]);
  Some {| get_url := url; get_json := true;
          get_reply := _parseCallback callback |}.

Definition queryRaw {R} (databaseName : JsVal) (query : Arg R)
    (callback : option (Callback R)) : option (GetCall R) :=
  match query with
  | AFn cb =>
      _queryDB databaseName
        (AVal (JObj [("db", obj_get this_options "database")])) (Some cb)
  | AVal q => _queryDB q (AVal (JObj [("db", databaseName)])) callback
  end.

(** The callback [query] hands to [queryRaw]. *)
Definition query_handler {R} (callback : Callback R) : Callback (Run R) :=
  λ err results,
    match err with
    | Some e => Value (callback err results)
    | None => _parseResults results callback
    end.

Definition query {R} (databaseName query : JsVal) (callback : Callback R)
  : option (GetCall (Run R)) :=
  queryRaw query (AVal (JObj [("db", databaseName)]))
    (Some (query_handler callback)).

(** The callback [getDatabaseNames] hands to [_queryDB]. *)
Definition databaseNames_handler {R} (callback : Callback R) : Callback (Run R) :=
  λ err results,
    match err with
    | Some e => Value (callback err results)
    | None =>
        first ← elem results 0;
        series ← of_exc (get_prop first "series");
        series0 ← elem series 0;
        values ← of_exc (get_prop series0 "values");
        rows ← of_option (collection_values values);
        names ← map_run (λ a, elem a 0) rows;
        mret (callback None (JArr names))
    end.

Definition getDatabaseNames {R} (callback : Callback R)
  : option (GetCall (Run R)) :=
  _queryDB (JStr "show databases") (AFn (databaseNames_handler callback)) None.
End Client.

(** An optional object argument: the object, or undefined. *)
Definition opt_obj (o : option (list (string * JsVal))) : JsVal :=
  match o with Some fields => JObj fields | None => JUndefined end.

(** Reference definition: the value of property [k] when the sources
    [options] and then [query] are laid over [base], a later source that
    has the property winning. *)
Definition overlaid (base : list (string * JsVal))
    (options query : option (list (string * JsVal))) (k : string) : JsVal :=
  match query, options with
  | Some q, _ => if obj_has q k then obj_get q k else
      match options with
      | Some o => if obj_has o k then obj_get o k else obj_get base k
      | None => obj_get base k
      end
  | None, Some o => if obj_has o k then obj_get o k else obj_get base k
  | None, None => obj_get base k
  end.

(** Reference definition: what a row holds for a key, given the columns
    of its series, the values of the row and the tags of the series: the
    tag of that name if there is one, else the value at the position of
    the column of that name, undefined when the row is too short or no
    column has that name. *)
Definition row_value (cols : list string) (vals : list JsVal)
    (tags : option (list (string * JsVal))) (k : string) : JsVal :=
  match tags with
  | Some t =>
      if obj_has t k then obj_get t k
      else from_option (λ j, index vals j.1) JUndefined
             (list_find (λ c, c = k) cols)
  | None =>
      from_option (λ j, index vals j.1) JUndefined
        (list_find (λ c, c = k) cols)
  end.

(** Reference definition: a per-call value, replaced by the configured
    one when it is falsy and the configured one is not. *)
Definition or_configured (configured given : JsVal) : JsVal :=
  if truthy configured && negb (truthy given) then configured else given.

End Requests.

Import Requests.

(** ** Line protocol strings *)

Module LineProtocol.

(** [s.replace (/c/g, by)] for a pattern of one character [c]. *)
Fixpoint replace_all (c : ascii) (by_ : string) (s : string) : string :=
  match s with
  | EmptyString => EmptyString
  | String a rest =>
      if Ascii.eqb a c then by_ +:+ replace_all c by_ rest
      else String a (replace_all c by_ rest)
  end.

(** [value.replace (/ /g, '\\ ').replace (/,/g, '\\,').replace (/=/g, '\\=')] *)
Definition escape_tag_value (value : string) : string :=
  replace_all "=" "\=" (replace_all "," "\," (replace_all " " "\ " value)).

(** The number a run of decimal digits denotes, after [acc]. *)
Fixpoint digits_value (acc : N) (s : string) : option N :=
  match s with
  | EmptyString => Some acc
  | String a rest =>
      let n := N_of_ascii a in
      if (48 <=? n)%N && (n <=? 57)%N
      then digits_value (10 * acc + (n - 48))%N rest
      else None
  end.

(** A property name that is an array index: the decimal text, as
    JavaScript writes a number, of an integer below 2^32 - 1. *)
Definition array_index (key : string) : option N :=
  n ← digits_value 0 key;
  if String.eqb (pretty n) key && (n <? 4294967295)%N then Some n else None.

Definition index_of (entry : string * JsVal) : N :=
  default 0%N (array_index entry.1).

Definition index_le : relation (string * JsVal) :=
  λ a b, (index_of a ≤ index_of b)%N.

#[global] Instance index_le_dec : RelDecision index_le :=
  λ a b, decide (index_of a ≤ index_of b)%N.

(** The own properties of an object in the order JavaScript enumerates
    them ([for ... in], [Object.keys], and so lodash's [_.forOwn]):
    the array indices in ascending order, then the other names in the
    order they were created. *)
Definition own_properties (fields : list (string * JsVal))
  : list (string * JsVal) :=
  let entries := (λ k, (k, obj_get fields k)) <$> fields.*1 in
  merge_sort index_le (filter (λ kv, is_Some (array_index kv.1)) entries)
  ++ filter (λ kv, array_index kv.1 = None) entries.

(** What [_.forOwn (object, ...)] visits, in order. *)
Definition forOwn_entries (object : JsVal) : option (list (string * JsVal)) :=
  match object with
  | JObj fields => Some (own_properties fields)
  | _ => entries_in object
  end.

Section Strings.
(** JavaScript's conversion to a string of a value that is not one. *)
Variable to_string : JsVal → string.

(** The iteratee of [_.forOwn] in [_createKeyTagString]. *)
Definition tag_item (key : string) (value : JsVal) : string :=
  match value with
  | JStr s => key +:+ "=" +:+ escape_tag_value s
  | _ => key +:+ "=" +:+ to_string value
  end.

(** [_createKeyTagString (object)]: [None] where the enumeration of
    [object] is outside what [forOwn_entries] writes out. *)
Definition _createKeyTagString (object : JsVal) : option string :=
  if truthy object then
    entries ← forOwn_entries object;
    Some (String.concat "," ((λ kv, tag_item kv.1 kv.2) <$> entries))
  else Some EmptyString.

End Strings.

(** Reference definition: the escaping of one character of a tag value. *)
Definition escape_char (a : ascii) : string :=
  if Ascii.eqb a " " || Ascii.eqb a "," || Ascii.eqb a "="
  then String "\" (String a EmptyString)
  else String a EmptyString.

(** Reference definition: escaping a tag value character by character. *)
Fixpoint escape_chars (s : string) : string :=
  match s with
  | EmptyString => EmptyString
  | String a rest => escape_char a +:+ escape_chars rest
  end.

(** Reference definition: reading an escaped tag value back, a backslash
    before a space, a comma or an equals sign being dropped.  [pending]
    tells that the previous character was a backslash not yet written. *)
Fixpoint unescape_from (pending : bool) (s : string) : string :=
  match s with
  | EmptyString => if pending then String "\" EmptyString else EmptyString
  | String a rest =>
      if Ascii.eqb a " " || Ascii.eqb a "," || Ascii.eqb a "="
      then String a (unescape_from false rest)
      else if Ascii.eqb a "\"
      then (if pending then String "\" (unescape_from true rest)
            else unescape_from true rest)
      else (if pending
            then String "\" (String a (unescape_from false rest))
            else String a (unescape_from false rest))
  end.

Definition unescape (s : string) : string := unescape_from false s.

(** Reference definition: the item written for one property, a string
    value escaped character by character. *)
Definition escaped_item (to_string : JsVal → string)
    (entry : string * JsVal) : string :=
  match entry.2 with
  | JStr s => entry.1 +:+ "=" +:+ escape_chars s
  | v => entry.1 +:+ "=" +:+ to_string v
  end.

(** Reference definition: both names are array indices, the first one
    the smaller. *)
Definition index_before (a b : string) : Prop :=
  match array_index a, array_index b with
  | Some i, Some j => (i < j)%N
  | _, _ => False
  end.

End LineProtocol.

Import LineProtocol.

(** ** More example data *)

Module MoreExamples.

(** A callback that records what it is called with. *)
Definition example_callback : Influx.Callback (option JsError * JsVal) :=
  λ err results, (err, results).

Definition example_ok : Influx.Response := {| Influx.statusCode := 200 |}.

Definition example_unavailable : Influx.Response := {| Influx.statusCode := 503 |}.

(** The instance built from [example_options], and the shared default
    array after it. *)
Definition example_shared_after : list JsVal :=
  Eval vm_compute in
    (Influx.constructor example_new_pool example_addHost example_url_parse
       [] (JObj example_options)).1.

Definition example_db : Influx.InfluxDB (list (JsVal * JsVal * JsVal)) :=
  Eval vm_compute in
    match (Influx.constructor example_new_pool example_addHost
             example_url_parse [] (JObj example_options)).2 with
    | Ret db => db
    | Throw _ => {| Influx._options := []; Influx._pool := [] |}
    end.

(** Options with an explicit list of two hosts. *)
Definition example_listed : list (list (string * JsVal)) :=
  [[("host", JStr "a.example")]; [("port", JNum 9000); ("protocol", JStr "https")]].

Definition example_listed_options : list (string * JsVal) :=
  [("hosts", JArr (JObj <$> example_listed)); ("username", JStr "ann")].

Definition example_null_hosts_options : list (string * JsVal) :=
  [("hosts", JNull)].

Definition example_broken_list_options : list (string * JsVal) :=
  [("hosts", JArr ((JObj <$> example_listed) ++ JNull :: []))].

Definition example_second_options : list (string * JsVal) :=
  [("protocol", JStr "https"); ("username", JStr "bob")].

(** A reply body whose second and third results carry errors. *)
Definition example_error_body : list (string * JsVal) :=
  [("results", JArr ([JObj []] ++ JObj [("error", JStr "boom")]
                       :: [JObj [("error", JStr "later")]]))].

(** A series with two rows, the second one short, and a tag. *)
Definition example_series : list (string * JsVal) :=
  [("name", JStr "cpu");
   ("columns", JArr (JStr <$> ["time"; "value"]));
   ("values", JArr (JArr <$> [[JNum 1; JNum 67]; [JNum 2]]));
   ("tags", JObj [("host", JStr "server01")])].

Definition example_result : list (string * JsVal) :=
  [("series", JArr [JObj example_series])].

(** The series of a reply to 'show databases'. *)
Definition example_databases : list (string * JsVal) :=
  [("name", JStr "databases");
   ("columns", JArr [JStr "name"]);
   ("values", JArr (JArr <$> [[JStr "_internal"]; [JStr "metrics"]]))].

Definition example_tags : list (string * JsVal) :=
  [("host", JStr "server 01"); ("length", JNum 3); ("zone", JStr "a=b,c")].

(** Tags some of whose names are array indices. *)
Definition example_numbered_tags : list (string * JsVal) :=
  [("zone", JStr "a"); ("10", JStr "x"); ("2", JStr "y"); ("01", JStr "z")].

(** A rendering of numbers, for tags that are not strings. *)
Definition example_to_string (v : JsVal) : string :=
  match v with JNum n => pretty n | _ => "" end.

End MoreExamples.

Import MoreExamples.

(** * Properties *)

(** ** Interpreting a response *)

Section ParseCallback.
Import Influx.

Lemma truthy_not_empty_string v : truthy v = true → is_empty_string v = false.
Proof. destruct v; simpl; try done. by intros ->%negb_true_iff. Qed.

(** The loop body never throws, whatever the index: a read of [error]
    is only made on a truthy element. *)
Lemma scan_body_spec results i :
  scan_body results i = Ret (nonempty_error (index results i)).
Proof.
  unfold scan_body.
  destruct (index results i) as [| |b|n|s|elems|fields] eqn:E; simpl; try done.
  - by destruct b.
  - by destruct (n =? 0).
  - by destruct (String.eqb s "").
  - destruct (truthy (obj_get fields "error")) eqn:T; simpl; [|done].
    by rewrite (truthy_not_empty_string _ T).
Qed.

Lemma index_out_of_range results i :
  (length results ≤ i)%nat → index results i = JUndefined.
Proof. intros Hi. unfold index. by rewrite lookup_ge_None_2. Qed.

Lemma first_nonempty_error_drop results i :
  first_nonempty_error (drop i results) =
  match nonempty_error (index results i) with
  | Some e => Some e
  | None => first_nonempty_error (drop (S i) results)
  end.
Proof.
  unfold index. destruct (results !! i) as [x|] eqn:Hx; simpl.
  - rewrite (drop_S _ _ _ Hx). unfold first_nonempty_error. simpl.
    by destruct (nonempty_error x).
  - apply lookup_ge_None_1 in Hx. by rewrite !drop_ge by lia.
Qed.

Lemma scan_loop_from results i :
  scan_loop results i = Ret (first_nonempty_error (drop i results)).
Proof.
  funelim (scan_loop results i);
    try match goal with
        | Hb : scan_body _ _ = _ |- _ => rewrite scan_body_spec in Hb
        end.
  - (* past the last turn *)
    by rewrite drop_ge by lia.
  - (* the body returned through the callback *)
    rewrite first_nonempty_error_drop.
    match goal with Hb : Ret _ = Ret _ |- _ => injection Hb as -> end.
    done.
  - (* the body fell through to the next turn *)
    rewrite first_nonempty_error_drop.
    match goal with Hb : Ret _ = Ret _ |- _ => injection Hb as -> end.
    match goal with IH : scan_loop _ (S _) = Ret _ |- _ => exact IH end.
  - (* the body threw: it never does *)
    done.
Qed.

(** C9. The error-scanning loop of [_parseCallback], whose index runs
    from 0 to [body.results.length] inclusive, never throws: no turn
    reads a property of a missing element, and the turn at the index
    equal to the length reads [undefined], which the truthiness guard
    absorbs.  The loop as a whole returns exactly the first non-empty
    error among the elements of the array, if there is one. *)
Theorem scan_loop_matches_element_scan (results : list JsVal) :
  (∀ i, ∃ r, scan_body results i = Ret r)
  ∧ index results (length results) = JUndefined
  ∧ scan_body results (length results) = Ret None
  ∧ scan_loop results 0 = Ret (first_nonempty_error results).
Proof.
  split; [|split; [|split]].
  - intros i. eexists. apply scan_body_spec.
  - by apply index_out_of_range.
  - by rewrite scan_body_spec, index_out_of_range.
  - by rewrite scan_loop_from, drop_0.
Qed.
End ParseCallback.

Section ParseCallbackOutcome.
Import Influx.
Context {R : Type} (cb : Callback R).

Local Ltac no_error_expected :=
  let He := fresh "He" in
  intros He; cbn in He;
  destruct He as [[? ?]|[?|[?|[[? ?]|?]]]];
  first [discriminate | tauto].

Lemma status_test res :
  (statusCode res <? 200) || (statusCode res >=? 300) = true
  ↔ statusCode res < 200 ∨ 300 ≤ statusCode res.
Proof. rewrite orb_true_iff, Z.ltb_lt, Z.geb_le. tauto. Qed.

(** Where [body] can be read (it is not [null], and it is not missing
    on a status outside 2xx), the callback is invoked exactly once: with
    an error under the four conditions, with [(null, body.results)]
    otherwise. *)
Lemma parseCallback_readable_body err res body :
  is_Some err
  ∨ (body ≠ JNull ∧ (body = JUndefined → 200 ≤ statusCode res < 300)) →
  (error_expected err res body →
     ∃ e, _parseCallback (Some cb) err res body
          = Ret (Some (cb (Some e) JUndefined)))
  ∧ (¬ error_expected err res body →
     _parseCallback (Some cb) err res body
     = Ret (Some (cb None (results_of body)))).
Proof.
  intros Hread. unfold error_expected, _parseCallback.
  destruct err as [e|].
  { split; [by eexists|]. intros Hn. exfalso. apply Hn. left. by eexists. }
  destruct Hread as [[? [=]]|[Hnull Hundef]].
  destruct ((statusCode res <? 200) || (statusCode res >=? 300)) eqn:Hst.
  { apply status_test in Hst.
    split; [|intros Hn; exfalso; apply Hn; tauto].
    intros _. destruct body; simpl; try done; try (by eexists).
    specialize (Hundef eq_refl). lia. }
  assert (¬ (statusCode res < 200 ∨ 300 ≤ statusCode res)) as Hok.
  { rewrite <- status_test, Hst. done. }
  destruct body as [| |b|n|s|elems|fields]; try done.
  - split; [by eexists|]. intros Hn. exfalso. apply Hn. tauto.
  - split; [|done]. no_error_expected.
  - split; [|done]. no_error_expected.
  - split; [|done]. no_error_expected.
  - split; [|done]. no_error_expected.
  - cbn [isObject get_prop results_of mbind exc_bind is_undefined].
    destruct (obj_get fields "results") as [| |b|n|s|results|fs] eqn:Hr;
      cbn [truthy isArray andb elements]; rewrite ?andb_false_r;
      try (split; [no_error_expected|reflexivity]).
    rewrite scan_loop_from, drop_0.
    destruct (first_nonempty_error results) as [e|] eqn:Hf.
    + split; [by eexists|]. intros Hn. exfalso. apply Hn.
      right; right; right; left. by eexists.
    + split; [no_error_expected|reflexivity].
Qed.

(** C8. [_parseCallback] on a reply with a status outside 2xx and no
    body (the transport leaves [body] undefined when the server sends
    none): evaluating [body.error] throws a [TypeError], and the caller's
    callback is never invoked, so no error is reported through it. *)
Theorem parseCallback_error_status_without_body_throws :
  _parseCallback (Some cb) None {| statusCode := 500 |} JUndefined
  = Throw (TypeError "Cannot read property 'error' of undefined").
Proof. reflexivity. Qed.

(** The same unguarded read on a successful reply whose body is
    [null]: [body.results] throws. *)
Lemma parseCallback_null_body_throws :
  _parseCallback (Some cb) None {| statusCode := 200 |} JNull
  = Throw (TypeError "Cannot read property 'results' of null").
Proof. reflexivity. Qed.

(** With an empty body and a 2xx status the error is reported through
    the callback. *)
Lemma parseCallback_success_status_without_body :
  _parseCallback (Some cb) None {| statusCode := 204 |} JUndefined
  = Ret (Some (cb (Some (NewError (JStr "body is undefined"))) JUndefined)).
Proof. reflexivity. Qed.
End ParseCallbackOutcome.

(** ** Backoff strategies *)

Section ExponentialBackoff.
Variable cfg : ExponentialConfig.
Hypothesis multiplier_escalates : 1 ≤ multiplier cfg.
Hypothesis cap_positive : 1 ≤ cap cfg.

Lemma exp_delay_le_cap (a : nat) : exp_delay cfg a ≤ cap cfg.
Proof. apply Z.le_min_r. Qed.








(** With the jitter on, a delay is one unit at least and at most the
    maximum scaled by the top of the band. *)
Lemma jittered_delays_bounds (j : Jitter) (n : nat) (s : nat * nat) :
  0 ≤ lowest j ≤ highest j →
  Forall (λ d, 1 ≤ d ≤ Z.max 1 (scaled (cap cfg) (highest j)))
    (delays (H := JitteredExponential cfg j) n s).
Proof using cap_positive.
  intros Hband. revert s. induction n as [|n IH]; intros s; [constructor|].
  cbn [delays]. constructor; [|apply IH].
  simpl. unfold one_unit_at_least, scaled.
  pose proof (exp_delay_le_cap s.1) as Hcap.
  assert (0 ≤ factor j s.2 ≤ highest j) as Hf by (unfold factor; lia).
  assert (exp_delay cfg s.1 * factor j s.2 ≤ cap cfg * highest j) as Hle by nia.
  pose proof (Z.div_le_mono _ _ 100 ltac:(lia) Hle). lia.
Qed.

(** A band of exactly 1x leaves the delays as they are without jitter. *)
Lemma jittered_without_scaling (j : Jitter) (n a k : nat) :
  lowest j = 100 → highest j = 100 →
  delays (H := JitteredExponential cfg j) n (a, k)
  = delays (H := Exponential cfg) n a.
Proof.
  intros Hlo Hhi. revert a k. induction n as [|n IH]; intros a k; [done|].
  cbn [delays]. simpl. rewrite IH. f_equal. unfold scaled, factor.
  rewrite Hlo, Hhi. replace (Z.max 100 (Z.min 100 (drawn j k))) with 100 by lia.
  by rewrite Z.div_mul.
Qed.

End ExponentialBackoff.


(** The constant variant, and the exponential one with its jitter off,
    restore their initial state on [reset()]; with the jitter on the
    random source stays where it is. *)
Lemma exponential_reset_initial cfg (s : nat) :
  reset (BackoffStrategy := Exponential cfg) s
  = initial (BackoffStrategy := Exponential cfg).
Proof. reflexivity. Qed.

Lemma constant_reset_initial delay (s : unit) :
  reset (BackoffStrategy := Constant delay) s
  = initial (BackoffStrategy := Constant delay).
Proof. by destruct s. Qed.

Lemma constant_next delay (s : unit) :
  (next (BackoffStrategy := Constant delay) s).1 = delay.
Proof. reflexivity. Qed.


(** ** Host *)

Section HostProperties.
Context {St : Type} `{BackoffStrategy St}.

Lemma fail_unfold (h : Host St) :
  fail h = ((next (backoff h)).1,
            {| url := url h; backoff := (next (backoff h)).2 |}).
Proof. unfold fail. by destruct (next (backoff h)). Qed.

(** C5. [fail()] returns exactly the delay that [next()] of the host's
    backoff strategy produces on the current state, and the host
    afterwards differs only in that strategy's state, which is the one
    [next()] advanced to. *)
Theorem fail_returns_next_delay (h : Host St) :
  (fail h).1 = (next (backoff h)).1
  ∧ backoff (fail h).2 = (next (backoff h)).2
  ∧ url (fail h).2 = url h
  ∧ fail h = ((next (backoff h)).1,
              {| url := url h; backoff := (next (backoff h)).2 |}).
Proof. by rewrite fail_unfold. Qed.

Lemma fail_url (h : Host St) : url (fail h).2 = url h.
Proof. by rewrite fail_unfold. Qed.

Lemma success_url (h : Host St) : url (success h) = url h.
Proof. reflexivity. Qed.

Lemma success_backoff (h : Host St) : backoff (success h) = reset (backoff h).
Proof. reflexivity. Qed.

(** C4. [success()] resets the host's backoff strategy; for a strategy
    whose [reset()] restores the initial state, the host's strategy is
    in its initial state afterwards and the next [fail()] (the next
    [next()]) returns the baseline delay again. *)
Theorem success_resets_backoff (h : Host St) :
  (∀ s : St, reset s = initial) →
  backoff (success h) = reset (backoff h)
  ∧ backoff (success h) = initial
  ∧ (fail (success h)).1 = baseline
  ∧ (next (backoff (success h))).1 = baseline.
Proof.
  intros Hreset. rewrite fail_unfold, success_backoff, Hreset.
  done.
Qed.

(** C7. The [url] a host was constructed with is left unchanged by
    [fail()], by [success()], and so by every sequence of calls. *)
Theorem url_immutable (h : Host St) (ops : list HostOp) :
  url (fail h).2 = url h
  ∧ url (success h) = url h
  ∧ url (run_ops ops h) = url h.
Proof.
  split; [apply fail_url|]. split; [apply success_url|].
  revert h. induction ops as [|op ops IH]; intros h; [done|].
  unfold run_ops in *. simpl. rewrite IH.
  destruct op; [apply fail_url|apply success_url].
Qed.
End HostProperties.

Lemma success_resets_backoff_example :
  (∀ s : nat, reset (BackoffStrategy := Exponential example_config) s
              = initial (BackoffStrategy := Exponential example_config))
  ∧ backoff (success (H := Exponential example_config) example_host) = 0%nat
  ∧ (fail (H := Exponential example_config)
       (success (H := Exponential example_config) example_host)).1 = 100.
Proof.
  assert (∀ s : nat, reset (BackoffStrategy := Exponential example_config) s
                     = initial (BackoffStrategy := Exponential example_config))
    as Hreset by reflexivity.
  split; [exact Hreset|].
  pose proof (success_resets_backoff (H := Exponential example_config)
                example_host Hreset) as (_ & Hinit & Hfail & _).
  split; [exact Hinit|exact Hfail].
Defined.

(** ** Pool *)

Section PoolFrame.
Context {St : Type} `{BackoffStrategy St}.

Lemma urls_unchanged (m m' : gmap nat (Host St)) (ids : list nat) :
  (∀ id, url <$> m' !! id = url <$> m !! id) →
  omap (λ id, url <$> m' !! id) ids = omap (λ id, url <$> m !! id) ids.
Proof.
  intros Hurl. induction ids as [|id ids IH]; [done|].
  csimpl. by rewrite Hurl, IH.
Qed.

Lemma insert_same_url (m : gmap nat (Host St)) this (h h' : Host St) :
  m !! this = Some h → url h' = url h →
  ∀ id, url <$> <[this := h']> m !! id = url <$> m !! id.
Proof.
  intros Hh Hurl id. destruct (decide (this = id)) as [<-|Hne].
  - by rewrite lookup_insert_eq, Hh; simpl; rewrite Hurl.
  - by rewrite lookup_insert_ne.
Qed.

(** C6. Calling [fail()] on a host of the pool's store leaves
    [available], [disabled] and the cursor as they are (so the host, and
    every other host, stays in the collection it was in), leaves every
    other host untouched, and changes of the host itself only the state
    of its backoff strategy. *)
Theorem fail_keeps_membership (p : Pool St) (this : nat) (h : Host St) :
  hosts p !! this = Some h →
  ∃ p', call_fail p this = Some ((next (backoff h)).1, p')
    ∧ available p' = available p
    ∧ disabled p' = disabled p
    ∧ cursor p' = cursor p
    ∧ getHostsAvailable p' = getHostsAvailable p
    ∧ getHostsDisabled p' = getHostsDisabled p
    ∧ hosts p' !! this
      = Some {| url := url h; backoff := (next (backoff h)).2 |}
    ∧ ∀ id, id ≠ this → hosts p' !! id = hosts p !! id.
Proof.
  intros Hh. unfold call_fail. rewrite Hh. simpl.
  rewrite fail_unfold. simpl.
  eexists. split; [reflexivity|]. simpl.
  repeat split.
  - unfold getHostsAvailable. simpl.
    by apply urls_unchanged, (insert_same_url _ _ h).
  - unfold getHostsDisabled. simpl.
    by apply urls_unchanged, (insert_same_url _ _ h).
  - by rewrite lookup_insert_eq.
  - intros id Hne. by rewrite lookup_insert_ne.
Qed.

(** The move between the collections is [disable], a step of the
    pool's own dispatch. *)
Lemma disable_moves (p : Pool St) (id : nat) (until : Z) :
  (id ∉ available (disable id until p))
  ∧ ((id, until) ∈ disabled (disable id until p)).
Proof.
  simpl. split.
  - rewrite list_elem_of_filter. tauto.
  - apply elem_of_app. right. by apply list_elem_of_singleton.
Qed.
End PoolFrame.

Section PoolDispatch.
Context {St : Type} `{BackoffStrategy St}.
Context {Request Body Failure : Type}.
Variable transport : string → Request → Outcome Body Failure.
Variable failureStatusRange : Z * Z.

(** Without a host that is due, reclaim changes nothing. *)
Lemma reclaim_nothing_due (now : Z) (p : Pool St) :
  Forall (λ e, now < e.2) (disabled p) → reclaim now p = p.
Proof.
  intros Hdue. destruct p as [hs av ds c]. unfold reclaim. simpl in *.
  induction Hdue as [|e ds He Hds IH]; [by rewrite app_nil_r|].
  rewrite filter_cons_False, filter_cons_True by lia.
  injection IH as IHa IHd. by rewrite IHa, IHd.
Qed.

(** A host that is due is back in [available] after reclaim. *)
Lemma reclaim_due (now : Z) (p : Pool St) (id : nat) (until : Z) :
  (id, until) ∈ disabled p → until ≤ now → id ∈ available (reclaim now p).
Proof.
  intros Hin Hdue. unfold reclaim. cbn [available].
  apply elem_of_app. right. apply (list_elem_of_fmap_2 fst _ (id, until)).
  apply list_elem_of_filter. by split.
Qed.

(** The hosts a dispatch call has tried are only ever added to. *)
Lemma attempt_tried (now : Z) (req : Request) (remaining : nat)
    (p : Pool St) (tried : list nat) r p' tried' :
  attempt transport failureStatusRange now req remaining p tried
  = Some (r, p', tried') →
  (tried' = tried ∧ available (reclaim now p) = [])
  ∨ ∃ id more, tried' = tried ++ id :: more.
Proof.
  revert p tried. induction remaining as [|remaining IH]; intros p tried Hrun;
    cbn [attempt] in Hrun;
    (destruct (available (reclaim now p)) eqn:Hav;
       [injection Hrun as <- <- <-; by left|]);
    right;
    (destruct (select (reclaim now p)) as [[id p2]|]; [|done]);
    csimpl in Hrun;
    (destruct (hosts p2 !! id) as [h|]; [|done]); csimpl in Hrun;
    (destruct (classify failureStatusRange (transport (url h) req));
       [destruct (call_fail p2 id) as [[delay p3]|]; [|done]; csimpl in Hrun
       |destruct (call_success p2 id); [|done]; csimpl in Hrun;
        injection Hrun as <- <- <-; by exists id, []]).
  - injection Hrun as <- <- <-. by exists id, [].
  - destruct remaining as [|remaining'].
    + injection Hrun as <- <- <-. by exists id, [].
    + destruct (IH _ _ Hrun) as [[-> _]|(id' & more & ->)].
      * by exists id, [].
      * exists id, (id' :: more). by rewrite <- app_assoc.
Qed.

(** C2, as amended.  When the available collection is empty and no
    disabled host is due at the time of the call (the re-admission time
    of every one of them is still ahead), a dispatch call fails with
    [NoHostsAvailableError] at once: no host is tried, so the transport
    is never invoked, and the pool is left exactly as it was, every host
    still disabled until its own time.  The condition on the disabled
    hosts is needed: a call that fails with [NoHostsAvailableError]
    without trying a host found nothing available after its reclaim, so
    with [available] empty no disabled host was due. *)
Theorem dispatch_fails_when_none_available (now : Z) (req : Request)
    (p : Pool St) :
  available p = [] →
  (Forall (λ e, now < e.2) (disabled p) →
   dispatch transport failureStatusRange now req p
   = Some (inl NoHostsAvailableError, p, []))
  ∧ (∀ r p', dispatch transport failureStatusRange now req p = Some (r, p', []) →
     Forall (λ e, now < e.2) (disabled p)).
Proof.
  intros Hav. split.
  - intros Hdue. unfold dispatch.
    destruct (length (available p) + length (disabled p))%nat;
      cbn [attempt]; by rewrite (reclaim_nothing_due _ _ Hdue), Hav.
  - intros r p' Hrun. unfold dispatch in Hrun.
    apply attempt_tried in Hrun as [[_ Hnone]|(id & more & Htried)].
    + apply Forall_forall. intros [id until] Hin.
      destruct (Z.lt_ge_cases now until) as [Hlt|Hge]; [done|].
      pose proof (reclaim_due now p id until Hin Hge) as Hback.
      rewrite Hnone in Hback. by apply elem_of_nil in Hback.
    + by destruct more.
Qed.

(** *** Round-robin selection on a healthy pool *)

Lemma reclaim_no_disabled (now : Z) (p : Pool St) :
  disabled p = [] → reclaim now p = p.
Proof. intros Hd. apply reclaim_nothing_due. by rewrite Hd. Qed.

Lemma cursor_step (c i M : nat) :
  ((S (c mod M) mod M + i) mod M = (c + S i) mod M)%nat.
Proof.
  rewrite Nat.Div0.add_mod_idemp_l.
  replace (S (c mod M) + i)%nat with (c mod M + S i)%nat by lia.
  by rewrite Nat.Div0.add_mod_idemp_l.
Qed.

Lemma cursor_offsets_distinct (c i j M : nat) :
  (i < M)%nat → (j < M)%nat →
  ((c + i) mod M = (c + j) mod M)%nat → i = j.
Proof.
  intros Hi Hj Heq.
  pose proof (Nat.div_mod_eq (c + i) M) as Di.
  pose proof (Nat.div_mod_eq (c + j) M) as Dj.
  rewrite Heq in Di.
  assert ((c + i) / M = (c + j) / M)%nat; [nia|lia].
Qed.

(** One dispatch call on a healthy pool with no disabled host: the
    host under the cursor is selected, answers, and has its backoff
    reset; the collections are as before and the cursor has advanced. *)
Lemma dispatch_healthy (now : Z) (req : Request) (p : Pool St) :
  pool_ok p → disabled p = [] →
  healthy transport failureStatusRange p →
  available p ≠ [] →
  ∃ id h r,
    available p !! (cursor p mod length (available p))%nat = Some id
    ∧ hosts p !! id = Some h
    ∧ dispatch transport failureStatusRange now req p
      = Some (inr r,
              {| hosts := <[id := success h]> (hosts p);
                 available := available p;
                 disabled := [];
                 cursor := (S (cursor p mod length (available p))
                            mod length (available p))%nat |},
              [id]).
Proof.
  intros [Hnd Hstore] Hdis Hhealthy Hne.
  assert (length (available p) ≠ 0)%nat as HM.
  { by destruct (available p). }
  destruct (lookup_lt_is_Some_2 (available p)
              (cursor p mod length (available p))%nat) as [id Hid].
  { by apply Nat.mod_upper_bound. }
  destruct (Hstore id) as [h Hh]; [by eapply list_elem_of_lookup_2|].
  destruct (Hhealthy id h req Hh) as [r Hr].
  exists id, h, r. split; [done|]. split; [done|].
  unfold dispatch.
  destruct (length (available p) + length (disabled p))%nat eqn:Hlen;
    [lia|].
  cbn [attempt]. rewrite (reclaim_no_disabled _ _ Hdis).
  destruct (available p) as [|a av] eqn:Hav; [done|].
  unfold select. rewrite Hav, Hid. simpl. rewrite Hh. simpl. rewrite Hr.
  unfold call_success. simpl. rewrite Hh. simpl.
  unfold set_hosts. simpl. by rewrite Hdis.
Qed.

Lemma healthy_after_success (p : Pool St) (id : nat) (h : Host St) av ds c :
  hosts p !! id = Some h →
  healthy transport failureStatusRange p →
  healthy transport failureStatusRange
    {| hosts := <[id := success h]> (hosts p);
       available := av; disabled := ds; cursor := c |}.
Proof.
  intros Hh Hhealthy id' h' req'. simpl.
  destruct (decide (id = id')) as [<-|Hne].
  - rewrite lookup_insert_eq. intros [= <-]. rewrite success_url.
    by eapply Hhealthy.
  - rewrite lookup_insert_ne by done. apply Hhealthy.
Qed.

Lemma pool_ok_after_success (p : Pool St) (id : nat) (h : Host St) ds c :
  pool_ok p →
  pool_ok {| hosts := <[id := success h]> (hosts p);
             available := available p; disabled := ds; cursor := c |}.
Proof.
  intros [Hnd Hstore]. split; [done|]. simpl. intros id' Hin.
  destruct (decide (id = id')) as [<-|Hne].
  - rewrite lookup_insert_eq. by eexists.
  - rewrite lookup_insert_ne by done. by apply Hstore.
Qed.

(** A sequence of dispatch calls on a healthy pool with no disabled
    host: every call tries one host, and the i-th call selects the host
    [i] places after the cursor, modulo the size of [available]. *)
Lemma dispatch_all_healthy (calls : list (Z * Request)) (p : Pool St) :
  pool_ok p → disabled p = [] →
  healthy transport failureStatusRange p →
  (calls ≠ [] → available p ≠ []) →
  ∃ rs p',
    dispatch_all transport failureStatusRange calls p = Some (rs, p')
    ∧ available p' = available p
    ∧ disabled p' = []
    ∧ Forall (λ r, ∃ response id, r = (inr response, [id])) rs
    ∧ Some <$> selected rs
      = (λ i, available p !! ((cursor p + i) mod length (available p))%nat)
          <$> seq 0 (length calls).
Proof.
  revert p. induction calls as [|[now req] calls IH];
    intros p Hok Hdis Hhealthy Hne.
  { exists [], p. by repeat split. }
  destruct (dispatch_healthy now req p Hok Hdis Hhealthy)
    as (id & h & r & Hid & Hh & Hdispatch); [by apply Hne|].
  set (p1 := {| hosts := <[id := success h]> (hosts p);
                available := available p; disabled := [];
                cursor := (S (cursor p mod length (available p))
                           mod length (available p))%nat |}) in *.
  assert (pool_ok p1) as Hok1 by (by apply pool_ok_after_success).
  assert (healthy transport failureStatusRange p1) as Hhealthy1
    by (by apply healthy_after_success).
  destruct (IH p1 Hok1 eq_refl Hhealthy1)
    as (rs & p' & Hrest & Hav & Hdis' & Hone & Hsel);
    [intros _; by apply Hne|].
  exists ((inr r, [id]) :: rs), p'.
  cbn [PoolM.dispatch_all]. rewrite Hdispatch. csimpl. rewrite Hrest. csimpl.
  split; [done|]. split; [done|]. split; [done|].
  split; [constructor; [by eexists _, _|done]|].
  unfold selected in *. csimpl. rewrite Hsel.
  rewrite Nat.add_0_r, Hid. f_equal.
  rewrite <- fmap_S_seq, <- list_fmap_compose.
  apply list_fmap_ext. intros _ i _. simpl.
  by rewrite cursor_step.
Qed.

(** C1. On a pool of M healthy hosts, all of them available, N ≤ M
    dispatch calls each select one host; the hosts selected are
    pairwise distinct and follow the round-robin order: the i-th call
    takes the host at position (cursor + i) modulo M of [available],
    the size of [available] staying M throughout. *)
Theorem round_robin_selects_distinct_hosts
    (calls : list (Z * Request)) (p : Pool St) :
  pool_ok p → disabled p = [] →
  healthy transport failureStatusRange p →
  (length calls ≤ length (available p))%nat →
  ∃ rs p',
    dispatch_all transport failureStatusRange calls p = Some (rs, p')
    ∧ Forall (λ r, ∃ response id, r = (inr response, [id])) rs
    ∧ length (selected rs) = length calls
    ∧ Some <$> selected rs
      = (λ i, available p !! ((cursor p + i) mod length (available p))%nat)
          <$> seq 0 (length calls)
    ∧ NoDup (selected rs)
    ∧ available p' = available p
    ∧ disabled p' = [].
Proof.
  intros Hok Hdis Hhealthy Hlen.
  destruct (dispatch_all_healthy calls p Hok Hdis Hhealthy)
    as (rs & p' & Hrun & Hav & Hdis' & Hone & Hsel).
  { intros Hc Hnil. rewrite Hnil in Hlen. destruct calls; [done|].
    simpl in Hlen. lia. }
  exists rs, p'. split; [done|]. split; [done|].
  assert (length (selected rs) = length calls) as Hcount.
  { rewrite <- (length_fmap Some), Hsel, length_fmap. apply length_seq. }
  split; [done|]. split; [done|]. split; [|done].
  apply (NoDup_fmap_1 Some). rewrite Hsel.
  apply NoDup_fmap_2_strong; [|apply NoDup_seq].
  intros i j Hi%elem_of_seq Hj%elem_of_seq Heq.
  assert (length (available p) ≠ 0)%nat as HM by lia.
  destruct (lookup_lt_is_Some_2 (available p)
              ((cursor p + i) mod length (available p))%nat) as [x Hx].
  { by apply Nat.mod_upper_bound. }
  rewrite Hx in Heq. symmetry in Heq.
  apply (cursor_offsets_distinct (cursor p) i j (length (available p)));
    [lia|lia|].
  destruct Hok as [Hnd _]. by eapply NoDup_lookup.
Qed.
End PoolDispatch.

Section PoolRegistration.
Context {St : Type} `{BackoffStrategy St}.
Context {Descriptor Failure : Type}.
Variable descriptor_url : Descriptor → string.

(** Registration keeps the store and [available] consistent and adds one
    available host. *)
Lemma addHost_pool_ok (d : Descriptor) (p p' : Pool St) :
  pool_ok p →
  addHost (Failure := Failure) descriptor_url d p = inr p' →
  pool_ok p'
  ∧ available p' = available p ++ [fresh (dom (hosts p))]
  ∧ disabled p' = disabled p
  ∧ hosts p' !! fresh (dom (hosts p))
    = Some {| url := descriptor_url d; backoff := initial |}.
Proof.
  intros [Hnd Hstore]. unfold addHost. case_decide; [done|].
  intros [= <-]. cbn [available disabled hosts].
  split; [|by rewrite lookup_insert_eq].
  assert (fresh (dom (hosts p)) ∉ available p) as Hfresh.
  { intros Hin%Hstore%elem_of_dom. by apply is_fresh in Hin. }
  split.
  - apply NoDup_app. split; [done|]. split; [|apply NoDup_singleton].
    intros x Hx Hx'. apply list_elem_of_singleton in Hx' as ->. done.
  - cbn [available hosts]. intros id [Hin|Hin]%elem_of_app.
    + rewrite lookup_insert_ne; [by apply Hstore|]. by intros <-.
    + apply list_elem_of_singleton in Hin as ->.
      rewrite lookup_insert_eq. by eexists.
Qed.

Lemma empty_pool_ok : pool_ok (St := St) empty_pool.
Proof. split; [constructor|]. by intros id Hin%elem_of_nil. Qed.
End PoolRegistration.

(** ** The constructor *)

Section ObjectFacts.
Import Influx.

Lemma obj_get_set_eq fields k v : obj_get (obj_set fields k v) k = v.
Proof.
  induction fields as [|[k' v'] fields IH]; simpl.
  - by rewrite String.eqb_refl.
  - destruct (String.eqb k' k) eqn:E; simpl.
    + by rewrite String.eqb_refl.
    + by rewrite E.
Qed.

Lemma obj_get_set_ne fields k k' v :
  k ≠ k' → obj_get (obj_set fields k v) k' = obj_get fields k'.
Proof.
  intros Hne. induction fields as [|[k0 v0] fields IH]; simpl.
  - by apply String.eqb_neq in Hne as ->.
  - destruct (String.eqb k0 k) eqn:E; simpl.
    + apply String.eqb_eq in E as ->.
      by apply String.eqb_neq in Hne as ->.
    + by rewrite IH.
Qed.

Lemma obj_get_missing fields k : k ∉ fields.*1 → obj_get fields k = JUndefined.
Proof.
  induction fields as [|[k' v'] fields IH]; [done|]. csimpl.
  intros [Hne Hnin]%not_elem_of_cons.
  apply not_eq_sym, String.eqb_neq in Hne as ->. by apply IH.
Qed.

(** [_.defaults] lets the first defined value of a property win. *)
Lemma defaults_fold (read : string → JsVal) (ks : list string) dest k :
  obj_get
    (foldl (λ d k, if is_undefined (obj_get d k) then obj_set d k (read k) else d)
           dest ks) k
  = if is_undefined (obj_get dest k)
    then (if decide (k ∈ ks) then read k else JUndefined)
    else obj_get dest k.
Proof.
  revert dest. induction ks as [|k0 ks IH]; intros dest.
  { cbn [foldl]. destruct (decide (k ∈ [])) as [Hin|_].
    - by apply elem_of_nil in Hin.
    - by destruct (obj_get dest k). }
  cbn [foldl]. rewrite IH. clear IH.
  destruct (decide (k0 = k)) as [->|Hne].
  - destruct (decide (k ∈ k :: ks)) as [_|Hnin];
      [|by exfalso; apply Hnin, elem_of_cons; left].
    destruct (is_undefined (obj_get dest k)) eqn:Hu; [|by rewrite Hu].
    rewrite obj_get_set_eq.
    destruct (is_undefined (read k)) eqn:Hr; [|done].
    destruct (read k); try done. by case_decide.
  - assert (obj_get (if is_undefined (obj_get dest k0)
                     then obj_set dest k0 (read k0) else dest) k
            = obj_get dest k) as ->.
    { destruct (is_undefined (obj_get dest k0)); [|done].
      by apply obj_get_set_ne. }
    destruct (is_undefined (obj_get dest k)); [|done].
    destruct (decide (k ∈ ks)) as [Hin|Hnin];
      destruct (decide (k ∈ k0 :: ks)) as [Hin'|Hnin']; try done.
    + exfalso. apply Hnin', elem_of_cons. by right.
    + apply elem_of_cons in Hin' as [?|?]; done.
Qed.

Lemma defaults_get dest src k :
  obj_get (defaults dest (JObj src)) k
  = if is_undefined (obj_get dest k) then obj_get src k else obj_get dest k.
Proof.
  unfold defaults. cbn [keys_of read_key].
  rewrite (defaults_fold (obj_get src)).
  destruct (is_undefined (obj_get dest k)); [|done].
  case_decide; [done|]. by rewrite obj_get_missing.
Qed.

Lemma pick_credentials_no_host fields :
  obj_get (pick fields ["username"; "password"; "protocol"]) "host" = JUndefined
  ∧ obj_get (pick fields ["username"; "password"; "protocol"]) "port" = JUndefined.
Proof.
  unfold pick. cbn [omap list_omap].
  by destruct (obj_has fields "username"), (obj_has fields "password"),
       (obj_has fields "protocol").
Qed.
End ObjectFacts.

Section ConstructorProperties.
Import Influx.
Context {P : Type}.
Variable new_pool : JsVal → P.
Variable pool_addHost : JsVal → JsVal → JsVal → P → P.
Variable url_parse : string → ParsedUrl.

Lemma defaultOptions_hosts shared :
  obj_get (defaultOptions shared) "hosts" = JArr shared.
Proof. reflexivity. Qed.

Lemma hosts_after_defaults given shared :
  obj_get (defaults given (JObj (defaultOptions shared))) "hosts"
  = if is_undefined (obj_get given "hosts") then JArr shared
    else obj_get given "hosts".
Proof. by rewrite defaults_get, defaultOptions_hosts. Qed.

Lemma is_zero_length (l : list JsVal) :
  is_zero (JNum (Z.of_nat (length l))) = true → l = [].
Proof. by destruct l. Qed.

Lemma constructor_keeps_seeded shared options :
  seeded_only shared →
  seeded_only (constructor new_pool pool_addHost url_parse shared options).1.
Proof.
  intros Hseed. unfold constructor.
  destruct (match options with
            | JStr addr => JObj <$> parseOptionsUrl url_parse addr
            | _ => mret options
            end) as [options1|t]; [|done].
  rewrite hosts_after_defaults.
  destruct (is_undefined (obj_get (defaults [] options1) "hosts")) eqn:Hfrom.
  - (* [hosts] is the shared array *)
    cbn [get_prop]. rewrite String.eqb_refl.
    destruct (is_zero (JNum (Z.of_nat (length shared)))) eqn:Hz; [|done].
    apply is_zero_length in Hz as ->. simpl.
    right. eexists. split; [done|]. apply pick_credentials_no_host.
  - (* [hosts] came from the caller *)
    destruct (get_prop (obj_get (defaults [] options1) "hosts") "length")
      as [len|t]; [|done].
    destruct (is_zero len); [|done].
    by destruct (obj_get (defaults [] options1) "hosts").
Qed.

Lemma reachable_seeded shared :
  SharedReachable new_pool pool_addHost url_parse shared → seeded_only shared.
Proof.
  induction 1 as [|shared options _ IH]; [by left|].
  by apply constructor_keeps_seeded.
Qed.

Lemma register_descriptor_without_host (d : list (string * JsVal)) pool :
  obj_get d "host" = JUndefined → obj_get d "port" = JUndefined →
  register_hosts pool_addHost url_parse [JObj d] pool
  = Ret (pool_addHost (JStr "127.0.0.1") (JNum 8086)
           (js_or (obj_get d "protocol") (JStr "http")) pool).
Proof. intros Hh Hp. simpl. by rewrite Hh, Hp. Qed.

(** C10. For an options object whose [hosts] list is absent or empty,
    the constructor ends with exactly one descriptor in [hosts], which
    has no [host] and no [port], and registers exactly one host in the
    fresh pool, with hostname 127.0.0.1 and port 8086, whatever
    top-level [host] and [port] the options carry; a descriptor seeded
    by the call is the pick of [username], [password] and [protocol]. *)
Theorem constructor_registers_default_host
    (shared : list JsVal) (fields : list (string * JsVal)) :
  SharedReachable new_pool pool_addHost url_parse shared →
  obj_get fields "hosts" = JUndefined ∨ obj_get fields "hosts" = JArr [] →
  ∃ shared' db d,
    constructor new_pool pool_addHost url_parse shared (JObj fields)
    = (shared', Ret db)
    ∧ obj_get (_options db) "hosts" = JArr [JObj d]
    ∧ obj_get d "host" = JUndefined
    ∧ obj_get d "port" = JUndefined
    ∧ _pool db
      = pool_addHost (JStr "127.0.0.1") (JNum 8086)
          (js_or (obj_get d "protocol") (JStr "http"))
          (new_pool (obj_get (_options db) "pool"))
    ∧ (shared = [] ∨ obj_get fields "hosts" = JArr [] →
       d = pick (defaults (defaults [] (JObj fields))
                   (JObj (defaultOptions shared)))
                ["username"; "password"; "protocol"]).
Proof.
  intros Hreach%reachable_seeded Hhosts. unfold constructor.
  cbn [mret exc_ret]. rewrite hosts_after_defaults, defaults_get.
  cbn [obj_get is_undefined].
  set (options := defaults (defaults [] (JObj fields))
                    (JObj (defaultOptions shared))).
  destruct Hhosts as [-> | ->]; cbn [is_undefined].
  - (* absent: the shared array is used *)
    cbn [get_prop]. rewrite String.eqb_refl.
    destruct Hreach as [-> | (d & -> & Hh & Hp)].
    + (* first use: a descriptor is seeded *)
      cbn [length is_zero app].
      change (Z.of_nat 0 =? 0) with true. cbn [elements].
      destruct (pick_credentials_no_host options) as [Hh Hp].
      rewrite (register_descriptor_without_host _ _ Hh Hp).
      eexists _, _, _. split; [reflexivity|]. cbn [_options _pool].
      rewrite obj_get_set_eq. by repeat split.
    + (* later use: the descriptor seeded before is found *)
      cbn [length is_zero app].
      change (Z.of_nat 1 =? 0) with false. cbn [elements].
      rewrite (register_descriptor_without_host _ _ Hh Hp).
      eexists _, _, _. split; [reflexivity|]. cbn [_options _pool].
      rewrite obj_get_set_eq.
      repeat split; try done. by intros [[=]|[=]].
  - (* empty: the caller's array receives the seeded descriptor *)
    cbn [get_prop]. rewrite String.eqb_refl.
    cbn [length is_zero app].
    change (Z.of_nat 0 =? 0) with true. cbn [elements].
    destruct (pick_credentials_no_host options) as [Hh Hp].
    rewrite (register_descriptor_without_host _ _ Hh Hp).
    eexists _, _, _. split; [reflexivity|]. cbn [_options _pool].
    rewrite obj_get_set_eq. by repeat split.
Qed.
End ConstructorProperties.

(** ** Worked instances *)

Lemma example_pool_ok : pool_ok example_pool.
Proof.
  split.
  - apply (bool_decide_unpack _). by vm_compute.
  - intros id Hin. simpl in Hin.
    repeat (apply elem_of_cons in Hin as [->|Hin]); try (by eexists).
    by apply elem_of_nil in Hin.
Qed.

Lemma example_pool_healthy :
  healthy example_transport example_range example_pool.
Proof. intros id h req _. by eexists. Qed.

Lemma round_robin_selects_distinct_hosts_example :
  (pool_ok example_pool
   ∧ disabled example_pool = []
   ∧ healthy example_transport example_range example_pool
   ∧ (length example_calls ≤ length (available example_pool))%nat)
  ∧ ∃ rs p',
      dispatch_all (H := Exponential example_config)
        example_transport example_range example_calls example_pool
      = Some (rs, p')
      ∧ selected rs = [1; 2; 0]%nat
      ∧ NoDup (selected rs).
Proof.
  assert (length example_calls ≤ length (available example_pool))%nat
    as Hlen by (simpl; lia).
  split; [by auto using example_pool_ok, example_pool_healthy|].
  destruct (round_robin_selects_distinct_hosts
              (H := Exponential example_config)
              example_transport example_range example_calls example_pool
              example_pool_ok eq_refl example_pool_healthy Hlen)
    as (rs & p' & Hrun & _ & _ & Hsel & Hnd & _).
  exists rs, p'. split; [exact Hrun|]. split; [|exact Hnd].
  apply (inj (fmap Some)). exact Hsel.
Defined.

Lemma dispatch_fails_when_none_available_example :
  (available example_disabled_pool = []
   ∧ Forall (λ e, 100 < e.2) (disabled example_disabled_pool))
  ∧ dispatch (H := Exponential example_config)
      example_transport example_range 100 () example_disabled_pool
    = Some (inl NoHostsAvailableError, example_disabled_pool, []).
Proof.
  assert (available example_disabled_pool = []) as Hempty by reflexivity.
  assert (Forall (λ e, 100 < e.2) (disabled example_disabled_pool)) as Hdue
    by (repeat constructor; simpl; lia).
  split; [by split|].
  exact (proj1 (dispatch_fails_when_none_available
                  (H := Exponential example_config)
                  example_transport example_range 100 () example_disabled_pool
                  Hempty) Hdue).
Defined.

(** C2, the claim as it is worded fails: with the available collection
    empty and the first host disabled until time 50, the reclaim of a
    dispatch call at time 100 re-admits that host, the request goes to
    it and its answer is returned. *)
Lemma dispatch_readmits_due_host :
  available example_due_pool = []
  ∧ (λ res, (res.1.1, available res.1.2, disabled res.1.2, res.2))
      <$> dispatch (H := Exponential example_config)
            example_transport example_range 100 () example_due_pool
    = Some (inr (200, "ok"), [0%nat], [(1%nat, 700); (2%nat, 900)], [0%nat]).
Proof. split; reflexivity. Qed.

Lemma fail_keeps_membership_example :
  hosts example_pool !! 1%nat
  = Some {| url := "http://b:8086"; backoff := 2%nat |}
  ∧ ∃ p', call_fail (H := Exponential example_config) example_pool 1
          = Some (400, p')
      ∧ available p' = [0; 1; 2]%nat
      ∧ disabled p' = []
      ∧ hosts p' !! 1%nat = Some {| url := "http://b:8086"; backoff := 3%nat |}.
Proof.
  assert (hosts example_pool !! 1%nat
          = Some {| url := "http://b:8086"; backoff := 2%nat |}) as Hh
    by reflexivity.
  split; [exact Hh|].
  destruct (fail_keeps_membership (H := Exponential example_config)
              example_pool 1 _ Hh)
    as (p' & Hcall & Hav & Hdis & _ & _ & _ & Hthis & _).
  exists p'. split; [exact Hcall|]. split; [exact Hav|].
  split; [exact Hdis|exact Hthis].
Defined.

Lemma constructor_registers_default_host_example :
  (Influx.SharedReachable example_new_pool example_addHost example_url_parse []
   ∧ (obj_get example_options "hosts" = JUndefined
      ∨ obj_get example_options "hosts" = JArr []))
  ∧ ∃ shared' db d,
      Influx.constructor example_new_pool example_addHost example_url_parse
        [] (JObj example_options) = (shared', Ret db)
      ∧ obj_get d "host" = JUndefined
      ∧ Influx._pool db
        = [(JStr "127.0.0.1", JNum 8086,
            js_or (obj_get d "protocol") (JStr "http"))].
Proof.
  assert (obj_get example_options "hosts" = JUndefined
          ∨ obj_get example_options "hosts" = JArr []) as Hhosts
    by (left; reflexivity).
  split; [split; [apply Influx.shared_initial|exact Hhosts]|].
  destruct (constructor_registers_default_host
              example_new_pool example_addHost example_url_parse
              [] example_options (Influx.shared_initial _ _ _) Hhosts)
    as (shared' & db & d & Hrun & _ & Hh & _ & Hpool & _).
  exists shared', db, d. split; [exact Hrun|]. split; [exact Hh|exact Hpool].
Defined.

(** With the spec's pool behind it, the constructor leaves exactly one
    host in the pool, at the default address, although the options name
    another host and port. *)
Lemma constructor_pool_example :
  match (Influx.constructor example_spec_new_pool example_spec_addHost
           example_url_parse [] (JObj example_options)).2 with
  | Ret db =>
      match Influx._pool db with
      | inr p => Some (getHostsAvailable p, getHostsDisabled p)
      | inl _ => None
      end
  | Throw _ => None
  end = Some (["http://127.0.0.1:8086"], []).
Proof. by vm_compute. Qed.

(** * Further properties *)

(** ** Options given as a URL *)

Section UrlOptions.
Import Influx.
Variable url_parse : string → ParsedUrl.

Lemma split_on_colon (s : string) :
  split_on ":" s
  = before_colon s
    :: match after_colon s with
       | Some rest => split_on ":" rest
       | None => []
       end.
Proof.
  induction s as [|a s IH]; [done|]. cbn [split_on before_colon after_colon].
  destruct (Ascii.eqb a ":"); [done|]. rewrite IH. done.
Qed.

Lemma split_on_head (s : string) :
  head (split_on ":" s) = Some (before_colon s).
Proof. by rewrite split_on_colon. Qed.

(** X1. For a URL with credentials and a pathname, [parseOptionsUrl]
    takes as username the part of the credentials before the first colon
    and as password the part between the first and the second colon: what
    follows a second colon is dropped, and without a colon the password
    is left undefined. *)
Theorem parseOptionsUrl_credentials (addr a p : string) :
  auth (url_parse addr) = Some a → a ≠ "" →
  pathname (url_parse addr) = Some p →
  ∃ options,
    parseOptionsUrl url_parse addr = Ret options
    ∧ obj_get options "username" = JStr (before_colon a)
    ∧ obj_get options "password"
      = match after_colon a with
        | Some rest => JStr (before_colon rest)
        | None => JUndefined
        end.
Proof.
  intros Ha Hne Hp. unfold parseOptionsUrl. rewrite Ha, Hp.
  cbn [str_or_null truthy default get_prop]. unfold id.
  assert (negb (String.eqb a "") = true) as ->.
  { apply negb_true_iff, String.eqb_neq. done. }
  rewrite String.eqb_refl.
  assert (index (JStr <$> split_on ":" a) 0 = JStr (before_colon a)) as ->.
  { by rewrite split_on_colon. }
  assert (index (JStr <$> split_on ":" a) 1
          = match after_colon a with
            | Some rest => JStr (before_colon rest)
            | None => JUndefined
            end) as ->.
  { rewrite split_on_colon. destruct (after_colon a) as [rest|]; [|done].
    by rewrite split_on_colon. }
  cbn [mbind exc_bind mret exc_ret].
  destruct (1 <? Z.of_nat (String.length p)); eexists;
    (split; [reflexivity|]); by cbn.
Qed.
End UrlOptions.

(** ** More on the constructor *)

Section ConstructorMore.
Import Influx.
Context {P : Type}.
Variable new_pool : JsVal → P.
Variable pool_addHost : JsVal → JsVal → JsVal → P → P.
Variable url_parse : string → ParsedUrl.

(** The object [parseOptionsUrl] returns keeps the URL's host, port and
    protocol and never has a [hosts] property. *)
Lemma parseOptionsUrl_fields (addr : string) options :
  parseOptionsUrl url_parse addr = Ret options →
  obj_get options "hosts" = JUndefined
  ∧ obj_get options "pool" = JUndefined
  ∧ obj_get options "host" = str_or_null (hostname (url_parse addr))
  ∧ obj_get options "port" = str_or_null (port (url_parse addr))
  ∧ obj_get options "protocol" = str_or_null (protocol (url_parse addr)).
Proof.
  unfold parseOptionsUrl.
  destruct (pathname (url_parse addr)) as [p|]; [|done].
  cbn [str_or_null get_prop]. rewrite String.eqb_refl.
  cbn [mbind exc_bind mret exc_ret].
  destruct (truthy _), (1 <? _); intros [= <-]; by cbn.
Qed.

(** The path the constructor takes when the options carry no [hosts]:
    the shared default array is used, seeded first if it is empty. *)
Lemma constructor_default_path (shared : list JsVal) (options options1 : JsVal) :
  seeded_only shared →
  match options with
  | JStr addr => JObj <$> parseOptionsUrl url_parse addr
  | _ => mret options
  end = Ret options1 →
  obj_get (defaults [] options1) "hosts" = JUndefined →
  ∃ d,
    (shared = []
     ∧ d = pick (defaults (defaults [] options1) (JObj (defaultOptions shared)))
                ["username"; "password"; "protocol"]
     ∨ shared = [JObj d])
    ∧ obj_get d "host" = JUndefined
    ∧ obj_get d "port" = JUndefined
    ∧ constructor new_pool pool_addHost url_parse shared options
      = ([JObj d],
         Ret {| _options :=
                  obj_set (defaults (defaults [] options1)
                             (JObj (defaultOptions shared)))
                    "hosts" (JArr [JObj d]);
                _pool :=
                  pool_addHost (JStr "127.0.0.1") (JNum 8086)
                    (js_or (obj_get d "protocol") (JStr "http"))
                    (new_pool
                       (obj_get (defaults (defaults [] options1)
                                   (JObj (defaultOptions shared))) "pool")) |}).
Proof.
  intros Hseed Hparse Hhosts. unfold constructor. rewrite Hparse.
  rewrite hosts_after_defaults, Hhosts. cbn [is_undefined get_prop].
  rewrite String.eqb_refl.
  set (resolved := defaults (defaults [] options1)
                     (JObj (defaultOptions shared))).
  destruct Hseed as [-> | (d & -> & Hh & Hp)].
  - cbn [length is_zero app]. change (Z.of_nat 0 =? 0) with true.
    cbn [elements].
    destruct (pick_credentials_no_host resolved) as [Hh Hp].
    rewrite (register_descriptor_without_host _ _ _ _ Hh Hp).
    eexists. split; [left; split; reflexivity|]. split; [done|].
    split; [done|]. cbn [mbind exc_bind mret exc_ret].
    by rewrite obj_get_set_ne.
  - cbn [length is_zero app]. change (Z.of_nat 1 =? 0) with false.
    cbn [elements].
    rewrite (register_descriptor_without_host _ _ _ _ Hh Hp).
    exists d. split; [by right|]. split; [done|]. split; [done|].
    cbn [mbind exc_bind mret exc_ret]. by rewrite obj_get_set_ne.
Qed.

(** X2. Options given as a URL: whenever the URL has a pathname, the
    constructor registers exactly one host, at 127.0.0.1 port 8086; the
    host and port of the URL are kept in [_options] but are not used for
    the pool. *)
Theorem constructor_url_ignores_host (shared : list JsVal) (addr p : string) :
  SharedReachable new_pool pool_addHost url_parse shared →
  pathname (url_parse addr) = Some p →
  ∃ shared' db protocol,
    constructor new_pool pool_addHost url_parse shared (JStr addr)
    = (shared', Ret db)
    ∧ _pool db
      = pool_addHost (JStr "127.0.0.1") (JNum 8086) protocol
          (new_pool JUndefined)
    ∧ obj_get (_options db) "host" = str_or_null (hostname (url_parse addr))
    ∧ obj_get (_options db) "port" = str_or_null (port (url_parse addr)).
Proof.
  intros Hreach%reachable_seeded Hpath.
  destruct (parseOptionsUrl url_parse addr) as [options|t] eqn:Hparse.
  2: { exfalso. revert Hparse. unfold parseOptionsUrl. rewrite Hpath.
       cbn [str_or_null get_prop]. rewrite String.eqb_refl.
       cbn [mbind exc_bind mret exc_ret]. by case_match. }
  destruct (parseOptionsUrl_fields _ _ Hparse)
    as (Hhosts & Hpool & Hhost & Hport & _).
  destruct (constructor_default_path shared (JStr addr) (JObj options))
    as (d & _ & _ & _ & Hrun); [done|by rewrite Hparse| |].
  { by rewrite defaults_get. }
  rewrite Hrun. eexists _, _, _. split; [reflexivity|]. cbn [_pool _options].
  rewrite !obj_get_set_ne by done. rewrite !defaults_get.
  cbn [obj_get is_undefined]. rewrite Hpool, Hhost, Hport.
  split; [reflexivity|].
  by destruct (hostname (url_parse addr)), (port (url_parse addr)).
Qed.
Lemma defaultOptions_other shared k :
  k ≠ "hosts" → obj_get (defaultOptions shared) k = obj_get (defaultOptions []) k.
Proof.
  intros Hne. change (defaultOptions shared)
    with (("hosts", JArr shared) :: tail (defaultOptions [])).
  change (defaultOptions []) with (("hosts", JArr []) :: tail (defaultOptions [])).
  cbn [obj_get]. by apply not_eq_sym, String.eqb_neq in Hne as ->.
Qed.

Lemma constructor_options_get (shared shared' : list JsVal)
    (fields : list (string * JsVal)) (db : InfluxDB P) (k : string) :
  constructor new_pool pool_addHost url_parse shared (JObj fields)
  = (shared', Ret db) →
  k ≠ "hosts" →
  obj_get (_options db) k
  = if is_undefined (obj_get fields k) then obj_get (defaultOptions []) k
    else obj_get fields k.
Proof.
  intros Hrun Hk. revert Hrun. unfold constructor. cbn [mret exc_ret].
  set (resolved := defaults (defaults [] (JObj fields))
                     (JObj (defaultOptions shared))).
  assert (obj_get resolved k
          = if is_undefined (obj_get fields k)
            then obj_get (defaultOptions []) k else obj_get fields k) as Hres.
  { unfold resolved. rewrite !defaults_get. cbn [obj_get is_undefined].
    by rewrite defaultOptions_other. }
  destruct (get_prop (obj_get resolved "hosts") "length") as [len|t]; [|done].
  destruct (if is_zero len then _ else _) as [hosts|t]; [|done].
  destruct hosts as [| | | | |elems|]; try done.
  destruct (register_hosts _ _ _ _) as [pool|t]; [|done].
  cbn [mbind exc_bind mret exc_ret]. intros [= _ <-]. cbn [_options].
  by rewrite obj_get_set_ne.
Qed.

(** X3. When the constructor returns an instance for an options object,
    every option other than [hosts] resolves to the caller's value if that
    is not undefined, and to the default otherwise: timePrecision 'ms',
    username and password 'root', host '127.0.0.1', protocol 'http', port
    8086, and undefined for anything else. *)
Theorem constructor_options_resolved (shared shared' : list JsVal)
    (fields : list (string * JsVal)) (db : InfluxDB P) (k : string) :
  constructor new_pool pool_addHost url_parse shared (JObj fields)
  = (shared', Ret db) →
  k ≠ "hosts" →
  obj_get (_options db) k
  = if is_undefined (obj_get fields k) then obj_get (defaultOptions []) k
    else obj_get fields k.
Proof. apply constructor_options_get. Qed.

Lemma register_hosts_objects (ds : list (list (string * JsVal))) (pool : P) :
  register_hosts pool_addHost url_parse (JObj <$> ds) pool
  = Ret (foldl (register_descriptor pool_addHost) pool ds).
Proof.
  revert pool. induction ds as [|d ds IH]; intros pool; [done|].
  cbn [fmap list_fmap register_hosts register_host get_prop mbind exc_bind
       mret exc_ret foldl].
  by rewrite IH.
Qed.

Lemma is_zero_length_cons (x : JsVal) (l : list JsVal) :
  is_zero (JNum (Z.of_nat (length (x :: l)))) = false.
Proof. cbn [is_zero]. apply Z.eqb_neq. cbn [length]. lia. Qed.

(** X4. An explicit, non-empty [hosts] list of descriptor objects is
    registered element by element, in order, each missing or falsy field
    replaced by its default; no default host is added, the list is kept
    as it is in [_options], and the shared default array is not touched. *)
Theorem constructor_registers_listed_hosts (shared : list JsVal)
    (fields : list (string * JsVal)) (ds : list (list (string * JsVal))) :
  obj_get fields "hosts" = JArr (JObj <$> ds) → ds ≠ [] →
  ∃ db,
    constructor new_pool pool_addHost url_parse shared (JObj fields)
    = (shared, Ret db)
    ∧ obj_get (_options db) "hosts" = JArr (JObj <$> ds)
    ∧ _pool db
      = foldl (register_descriptor pool_addHost)
          (new_pool (obj_get (_options db) "pool")) ds.
Proof.
  intros Hhosts Hne. unfold constructor. cbn [mret exc_ret].
  rewrite hosts_after_defaults, defaults_get. cbn [obj_get is_undefined].
  rewrite Hhosts. cbn [is_undefined get_prop]. rewrite String.eqb_refl.
  destruct ds as [|d ds]; [done|].
  rewrite fmap_cons, is_zero_length_cons, <- !fmap_cons.
  rewrite register_hosts_objects. cbn [mbind exc_bind mret exc_ret].
  eexists. split; [reflexivity|]. cbn [_options _pool].
  by rewrite obj_get_set_eq.
Qed.

(** X5. A [hosts] option that is neither undefined nor an array (null, a
    boolean, a number, a string, an object) makes the constructor throw a
    TypeError; the shared default array is left as it was. *)
Theorem constructor_rejects_hosts_not_array (shared : list JsVal)
    (fields : list (string * JsVal)) :
  obj_get fields "hosts" ≠ JUndefined →
  isArray (obj_get fields "hosts") = false →
  ∃ msg,
    constructor new_pool pool_addHost url_parse shared (JObj fields)
    = (shared, Throw (TypeError msg)).
Proof.
  intros Hdef Harr. unfold constructor. cbn [mret exc_ret].
  rewrite hosts_after_defaults, defaults_get. cbn [obj_get is_undefined].
  destruct (obj_get fields "hosts") as [| |b|n|s|elems|fs];
    try done; cbn [is_undefined get_prop]; rewrite ?String.eqb_refl;
    try (by eexists).
  - destruct (is_zero _); by eexists.
  - destruct (is_zero _); by eexists.
Qed.

Lemma register_hosts_missing_entry (ds : list (list (string * JsVal)))
    (x : JsVal) (rest : list JsVal) (pool : P) :
  x = JNull ∨ x = JUndefined →
  ∃ msg,
    register_hosts pool_addHost url_parse ((JObj <$> ds) ++ x :: rest) pool
    = Throw (TypeError msg).
Proof.
  intros Hx. revert pool. induction ds as [|d ds IH]; intros pool.
  - destruct Hx as [-> | ->]; by eexists.
  - cbn [fmap list_fmap app register_hosts register_host get_prop mbind
         exc_bind mret exc_ret].
    apply IH.
Qed.

(** X6. A [hosts] list with a null or undefined entry (after any number
    of descriptor objects) makes the constructor throw a TypeError when it
    reaches that entry; the shared default array is left as it was. *)
Theorem constructor_rejects_missing_host_entry (shared : list JsVal)
    (fields : list (string * JsVal)) (ds : list (list (string * JsVal)))
    (x : JsVal) (rest : list JsVal) :
  obj_get fields "hosts" = JArr ((JObj <$> ds) ++ x :: rest) →
  x = JNull ∨ x = JUndefined →
  ∃ msg,
    constructor new_pool pool_addHost url_parse shared (JObj fields)
    = (shared, Throw (TypeError msg)).
Proof.
  intros Hhosts Hx. unfold constructor. cbn [mret exc_ret].
  rewrite hosts_after_defaults, defaults_get. cbn [obj_get is_undefined].
  rewrite Hhosts. cbn [is_undefined get_prop]. rewrite String.eqb_refl.
  assert (is_zero (JNum (Z.of_nat (length ((JObj <$> ds) ++ x :: rest))))
          = false) as ->.
  { cbn [is_zero]. apply Z.eqb_neq. rewrite length_app. cbn [length]. lia. }
  destruct (register_hosts_missing_entry ds x rest
              (new_pool (obj_get
                 (obj_set (defaults (defaults [] (JObj fields))
                             (JObj (defaultOptions shared)))
                    "hosts" (JArr ((JObj <$> ds) ++ x :: rest))) "pool")) Hx)
    as [msg Hthrow].
  rewrite Hthrow. by eexists.
Qed.

Lemma obj_has_false fields k : obj_has fields k = false → obj_get fields k = JUndefined.
Proof.
  induction fields as [|[k' v] fields IH]; [done|].
  cbn [obj_has existsb obj_get fst]. destruct (String.eqb k' k); [done|].
  apply IH.
Qed.

Lemma pick_credentials_protocol fields :
  obj_get (pick fields ["username"; "password"; "protocol"]) "protocol"
  = obj_get fields "protocol"
  ∧ obj_get (pick fields ["username"; "password"; "protocol"]) "username"
    = obj_get fields "username"
  ∧ obj_get (pick fields ["username"; "password"; "protocol"]) "password"
    = obj_get fields "password".
Proof.
  unfold pick. cbn [omap list_omap].
  destruct (obj_has fields "username") eqn:Hu,
           (obj_has fields "password") eqn:Hp,
           (obj_has fields "protocol") eqn:Hr; cbn;
    repeat match goal with
           | Hno : obj_has _ _ = false |- _ =>
               rewrite (obj_has_false _ _ Hno); clear Hno
           end; done.
Qed.

(** X7. The default [hosts] array is shared between instances: after a
    first instance was built from options without [hosts], a second one
    built from options without [hosts] finds the first one's descriptor
    in it, so it registers its single host with the protocol (and keeps in
    [hosts] the credentials) of the first options, not of its own. *)
Theorem constructor_reuses_first_descriptor
    (first second : list (string * JsVal)) :
  obj_get first "hosts" = JUndefined →
  obj_get second "hosts" = JUndefined →
  ∃ d db1 db2,
    constructor new_pool pool_addHost url_parse [] (JObj first)
    = ([JObj d], Ret db1)
    ∧ constructor new_pool pool_addHost url_parse [JObj d] (JObj second)
      = ([JObj d], Ret db2)
    ∧ obj_get d "protocol"
      = (if is_undefined (obj_get first "protocol") then JStr "http"
         else obj_get first "protocol")
    ∧ obj_get d "username"
      = (if is_undefined (obj_get first "username") then JStr "root"
         else obj_get first "username")
    ∧ obj_get (_options db2) "hosts" = JArr [JObj d]
    ∧ _pool db2
      = pool_addHost (JStr "127.0.0.1") (JNum 8086)
          (js_or (obj_get d "protocol") (JStr "http"))
          (new_pool (obj_get second "pool")).
Proof.
  intros H1 H2.
  destruct (constructor_default_path [] (JObj first) (JObj first))
    as (d & Hd & Hh & Hp & Hrun1); [by left|done|by rewrite defaults_get|].
  destruct Hd as [[_ Hd]|[=]].
  destruct (constructor_default_path [JObj d] (JObj second) (JObj second))
    as (d' & Hd' & _ & _ & Hrun2);
    [right; by exists d|done|by rewrite defaults_get|].
  destruct Hd' as [[[=] _]|[= <-]].
  eexists d, _, _. split; [exact Hrun1|]. split; [exact Hrun2|].
  destruct (pick_credentials_protocol
              (defaults (defaults [] (JObj first)) (JObj (defaultOptions []))))
    as (Hproto & Huser & _).
  rewrite Hd, Hproto, Huser, !defaults_get. cbn [obj_get is_undefined _options _pool].
  split; [done|]. split; [done|].
  rewrite obj_get_set_eq. split; [done|].
  by destruct (obj_get second "pool").
Qed.
End ConstructorMore.

(** ** More on the interpretation of a reply *)

Section ParseCallbackMore.
Import Influx.
Context {R : Type} (cb : Callback R).

Lemma success_status_test (res : Response) :
  200 ≤ statusCode res < 300 →
  (statusCode res <? 200) || (statusCode res >=? 300) = false.
Proof.
  intros Hok. apply orb_false_iff. split; [apply Z.ltb_ge; lia|].
  rewrite Z.geb_leb. apply Z.leb_gt. lia.
Qed.

Lemma first_nonempty_error_skips (pre : list JsVal) (x : JsVal)
    (post : list JsVal) (e : JsVal) :
  Forall (λ y, nonempty_error y = None) pre →
  nonempty_error x = Some e →
  first_nonempty_error (pre ++ x :: post) = Some e.
Proof.
  intros Hpre Hx. unfold first_nonempty_error.
  induction Hpre as [|y pre Hy _ IH]; csimpl.
  - by rewrite Hx.
  - by rewrite Hy.
Qed.

(** X8. On a 2xx reply whose [results] array has errors, the error
    reported is that of the first element carrying a non-empty one: the
    elements before it without an error do not matter, and neither does
    anything after it. *)
Theorem parseCallback_reports_first_error (res : Response)
    (fields : list (string * JsVal)) (pre : list JsVal) (x : JsVal)
    (post : list JsVal) (e : JsVal) :
  200 ≤ statusCode res < 300 →
  obj_get fields "results" = JArr (pre ++ x :: post) →
  Forall (λ y, nonempty_error y = None) pre →
  nonempty_error x = Some e →
  _parseCallback (Some cb) None res (JObj fields)
  = Ret (Some (cb (Some (NewError e)) JUndefined)).
Proof.
  intros Hok Hres Hpre Hx. unfold _parseCallback.
  rewrite (success_status_test _ Hok).
  cbn [isObject get_prop mbind exc_bind]. rewrite Hres.
  cbn [truthy isArray andb elements].
  rewrite scan_loop_from, drop_0, (first_nonempty_error_skips _ _ _ _ Hpre Hx).
  done.
Qed.

(** X9. On a reply with a status outside 2xx and a body that is neither
    undefined nor null, the error handed to the callback is made from
    [body.error] when the body is an object with a truthy [error], and
    from the whole body otherwise (a string body, an array, an object
    without [error]). *)
Theorem parseCallback_error_status_message (res : Response) (body : JsVal) :
  statusCode res < 200 ∨ 300 ≤ statusCode res →
  body ≠ JUndefined → body ≠ JNull →
  _parseCallback (Some cb) None res body
  = Ret (Some (cb (Some (NewError
                           (match body with
                            | JObj fields =>
                                if truthy (obj_get fields "error")
                                then obj_get fields "error" else body
                            | _ => body
                            end))) JUndefined)).
Proof.
  intros Hst%status_test Hu Hn. unfold _parseCallback. rewrite Hst.
  by destruct body.
Qed.

Lemma parseCallback_delivers_results (res : Response)
    (body : JsVal) :
  200 ≤ statusCode res < 300 →
  body ≠ JUndefined → body ≠ JNull →
  isArray (results_of body) = false →
  _parseCallback (Some cb) None res body
  = Ret (Some (cb None (results_of body))).
Proof.
  intros Hok Hu Hn Harr. unfold _parseCallback.
  rewrite (success_status_test _ Hok).
  destruct body as [| |b|n|s|elems|fields]; try done.
  cbn [isObject get_prop mbind exc_bind results_of] in *.
  rewrite Harr, andb_false_r. done.
Qed.

(** X10. On a 2xx reply whose body is neither undefined nor null and
    whose [results] is not an array (a text body, an array body, an
    object without [results]), no error is looked for: the callback
    receives [(null, body.results)], which is [(null, undefined)] unless
    the body is an object. *)
Theorem parseCallback_success_without_results_array (res : Response)
    (body : JsVal) :
  200 ≤ statusCode res < 300 →
  body ≠ JUndefined → body ≠ JNull →
  isArray (results_of body) = false →
  _parseCallback (Some cb) None res body
  = Ret (Some (cb None (results_of body))).
Proof. apply parseCallback_delivers_results. Qed.
End ParseCallbackMore.

(** ** Consecutive failures of a host *)

Section HostRunsProperties.
Context {St : Type} `{BackoffStrategy St}.

(** X11. Consecutive [fail()] calls on a host return exactly the delays
    that as many consecutive [next()] calls produce on its backoff
    strategy, in the same order, and leave the [url] unchanged. *)
Theorem fails_return_strategy_delays (n : nat) (h : Host St) :
  (fails n h).1 = delays n (backoff h)
  ∧ url (fails n h).2 = url h.
Proof.
  revert h. induction n as [|n IH]; intros h; [done|].
  cbn [fails delays]. rewrite fail_unfold.
  specialize (IH {| url := url h; backoff := (next (backoff h)).2 |}).
  destruct (fails n _) as [rest h2]. cbn in *.
  destruct IH as [-> ->]. done.
Qed.
End HostRunsProperties.

(** ** Request URLs *)

Section UrlProperties.
Import Influx.
Variable url_format : string → list (string * JsVal) → string.
Variable this_options : list (string * JsVal).

Lemma obj_has_elem_of fields k : obj_has fields k = true ↔ k ∈ fields.*1.
Proof.
  induction fields as [|[k' v] fields IH]; csimpl.
  - split; [done|]. by intros ?%elem_of_nil.
  - rewrite elem_of_cons, orb_true_iff, IH, String.eqb_eq.
    split; (intros [->|?]; [by left|by right]).
Qed.

Lemma foldl_set_get (entries : list (string * JsVal)) dest k val :
  (∀ v, (k, v) ∈ entries → v = val) →
  obj_get (foldl (λ d kv, obj_set d kv.1 kv.2) dest entries) k
  = if decide (k ∈ entries.*1) then val else obj_get dest k.
Proof.
  revert dest. induction entries as [|[k0 v0] entries IH]; intros dest Hval.
  { cbn [foldl]. by case_decide as Hin; [apply elem_of_nil in Hin|]. }
  cbn [foldl]. rewrite IH.
  2: { intros v Hin. apply Hval. by apply elem_of_cons; right. }
  csimpl. destruct (decide (k0 = k)) as [->|Hne].
  - rewrite obj_get_set_eq, (Hval v0) by (by apply elem_of_cons; left).
    rewrite (decide_True (P := k ∈ k :: entries.*1))
      by (by apply elem_of_cons; left).
    by case_decide.
  - rewrite obj_get_set_ne by done.
    destruct (decide (k ∈ entries.*1)) as [Hin|Hnin].
    + by rewrite decide_True by (by apply elem_of_cons; right).
    + rewrite decide_False; [done|].
      intros [?|?]%elem_of_cons; done.
Qed.

Lemma extend_optional_some dest (o : option (list (string * JsVal))) :
  is_Some (extend dest (opt_obj o)).
Proof. by destruct o. Qed.

Lemma extend_optional_get dest (o : option (list (string * JsVal))) d k :
  extend dest (opt_obj o) = Some d →
  obj_get d k
  = match o with
    | Some fields =>
        if obj_has fields k then obj_get fields k else obj_get dest k
    | None => obj_get dest k
    end.
Proof.
  destruct o as [fields|]; [|by intros [= <-]].
  unfold extend. cbn [opt_obj truthy entries_in mbind option_bind].
  intros [= <-].
  rewrite (foldl_set_get _ _ _ (obj_get fields k)).
  - rewrite <- list_fmap_compose.
    replace ((fst ∘ λ k0, (k0, obj_get fields k0)) <$> fields.*1)
      with fields.*1.
    2: { symmetry. etrans; [|apply list_fmap_id]. by apply list_fmap_ext. }
    destruct (obj_has fields k) eqn:Hhas.
    + apply obj_has_elem_of in Hhas. by rewrite decide_True.
    + rewrite decide_False; [done|]. intros Hin%obj_has_elem_of. congruence.
  - intros v (k' & [= -> ->] & _)%list_elem_of_fmap. done.
Qed.

Lemma fill_from_options_get option_name key queryObj k :
  obj_get (fill_from_options this_options option_name key queryObj) k
  = if String.eqb key k
    then or_configured (obj_get this_options option_name) (obj_get queryObj key)
    else obj_get queryObj k.
Proof.
  unfold fill_from_options, or_configured.
  destruct (String.eqb key k) eqn:Hk.
  - apply String.eqb_eq in Hk as <-.
    destruct (_ && _); [by rewrite obj_get_set_eq|done].
  - apply String.eqb_neq in Hk.
    destruct (_ && _); [by rewrite obj_get_set_ne|done].
Qed.

Lemma url_query_get (options query : option (list (string * JsVal))) :
  ∃ q, _url_query this_options (opt_obj options) (opt_obj query) = Some q
    ∧ ∀ k,
        obj_get q k
        = let given :=
            overlaid [("u", obj_get this_options "username");
                      ("p", obj_get this_options "password")] options query k in
          if String.eqb "rp" k
          then or_configured (obj_get this_options "retentionPolicy") given
          else if String.eqb "db" k
          then or_configured (obj_get this_options "database") given
          else if String.eqb "precision" k
          then or_configured (obj_get this_options "timePrecision") given
          else given.
Proof.
  unfold _url_query.
  set (base := [("u", obj_get this_options "username");
                ("p", obj_get this_options "password")]).
  destruct (extend_optional_some base options) as [q1 Hq1]. rewrite Hq1.
  destruct (extend_optional_some q1 query) as [q2 Hq2].
  cbn [mbind option_bind]. rewrite Hq2. cbn [mbind option_bind].
  eexists. split; [reflexivity|]. intros k.
  assert (∀ k', obj_get q2 k' = overlaid base options query k') as Hget.
  { intros k'. rewrite (extend_optional_get _ _ _ k' Hq2).
    rewrite (extend_optional_get _ _ _ k' Hq1).
    unfold overlaid. by destruct query, options. }
  cbn zeta. rewrite !fill_from_options_get.
  destruct (String.eqb "rp" k) eqn:Hrp.
  { apply String.eqb_eq in Hrp as <-. cbn [String.eqb Ascii.eqb Bool.eqb].
    by rewrite Hget. }
  destruct (String.eqb "db" k) eqn:Hdb.
  { apply String.eqb_eq in Hdb as <-. cbn [String.eqb Ascii.eqb Bool.eqb].
    by rewrite Hget. }
  destruct (String.eqb "precision" k) eqn:Hpr.
  { apply String.eqb_eq in Hpr as <-. by rewrite Hget. }
  apply Hget.
Qed.

(** X12. The query object [_url] builds from optional [options] and
    [query] objects: a property of [query] wins over one of [options],
    which wins over the credentials [u] and [p] taken from the client's
    username and password; after that [rp], [db] and [precision] are
    replaced by the client's retentionPolicy, database and timePrecision
    when the value given is falsy and the configured one is not. *)
Theorem url_query_precedence (options query : option (list (string * JsVal))) :
  ∃ q, _url_query this_options (opt_obj options) (opt_obj query) = Some q
    ∧ _url url_format this_options "query" (opt_obj options) (opt_obj query)
      = Some (url_format "query" q)
    ∧ ∀ k,
        obj_get q k
        = let given :=
            overlaid [("u", obj_get this_options "username");
                      ("p", obj_get this_options "password")] options query k in
          if String.eqb "rp" k
          then or_configured (obj_get this_options "retentionPolicy") given
          else if String.eqb "db" k
          then or_configured (obj_get this_options "database") given
          else if String.eqb "precision" k
          then or_configured (obj_get this_options "timePrecision") given
          else given.
Proof.
  destruct (url_query_get options query) as (q & Hq & Hget).
  exists q. split; [done|]. split; [|done]. unfold _url. by rewrite Hq.
Qed.

Lemma queryDB_request {R} (query : JsVal) (options : list (string * JsVal))
    (callback : option (Callback R)) :
  ∃ q, _queryDB url_format this_options query (AVal (JObj options)) callback
       = Some {| get_url := url_format "query" q; get_json := true;
                 get_reply := _parseCallback callback |}
    ∧ obj_get q "q" = query
    ∧ obj_get q "db"
      = or_configured (obj_get this_options "database")
          (if obj_has options "db" then obj_get options "db" else JUndefined).
Proof.
  destruct (url_query_get (Some options) (Some [("q", query)]))
    as (q & Hq & Hget).
  exists q. unfold _queryDB, _url. cbn [opt_obj] in Hq. rewrite Hq.
  split; [done|]. rewrite !Hget. cbn. split; [done|].
  by destruct (obj_has options "db").
Qed.

(** X13. [queryRaw]: with a database name the request asks for that
    database, unless the name is falsy and a database is configured; in
    the two-argument form, and with a falsy name, the configured database
    is used.  The query text travels as [q], and the reply goes through
    [_parseCallback] to the caller's callback. *)
Theorem queryRaw_database {R} (databaseName text : JsVal) (cb : Callback R) :
  (∃ q, queryRaw url_format this_options databaseName (AVal text) (Some cb)
        = Some {| get_url := url_format "query" q; get_json := true;
                  get_reply := _parseCallback (Some cb) |}
     ∧ obj_get q "q" = text
     ∧ obj_get q "db"
       = or_configured (obj_get this_options "database") databaseName)
  ∧ (∃ q, queryRaw url_format this_options text (AFn cb) None
          = Some {| get_url := url_format "query" q; get_json := true;
                    get_reply := _parseCallback (Some cb) |}
       ∧ obj_get q "q" = text
       ∧ obj_get q "db" = obj_get this_options "database").
Proof.
  split.
  - destruct (queryDB_request text [("db", databaseName)] (Some cb))
      as (q & Hrun & Hq & Hdb).
    exists q. by repeat split.
  - destruct (queryDB_request text
                [("db", obj_get this_options "database")] (Some cb))
      as (q & Hrun & Hq & Hdb).
    exists q. split; [done|]. split; [done|]. rewrite Hdb. cbn.
    unfold or_configured. by destruct (truthy _).
Qed.

(** X14. [query (databaseName, query, callback)] hands its arguments to
    [queryRaw] in the other order: the request it issues carries the
    query text as [db] (unless that is falsy and a database is
    configured) and, as [q], the object [{ db: databaseName }]. *)
Theorem query_request_parameters {R} (databaseName text : JsVal)
    (cb : Callback R) :
  ∃ q, query url_format this_options databaseName text cb
       = Some {| get_url := url_format "query" q; get_json := true;
                 get_reply := _parseCallback (Some (query_handler cb)) |}
    ∧ obj_get q "q" = JObj [("db", databaseName)]
    ∧ obj_get q "db"
      = or_configured (obj_get this_options "database") text.
Proof.
  unfold query, queryRaw.
  destruct (queryDB_request (JObj [("db", databaseName)]) [("db", text)]
              (Some (query_handler cb))) as (q & Hrun & Hq & Hdb).
  exists q. by repeat split.
Qed.
End UrlProperties.

(** ** Rows of a reply *)

Section ParseResults.
Import Influx.

Lemma mapM_as_key (cols : list string) : mapM as_key (JStr <$> cols) = Some cols.
Proof.
  apply mapM_Some_2. induction cols as [|c cols IH]; by constructor.
Qed.

Lemma zipObject_columns (cols : list string) (vals : list JsVal) :
  zipObject (JArr (JStr <$> cols)) (JArr vals)
  = Some (foldl (λ d kv, obj_set d kv.1 kv.2) []
            ((λ ik, (ik.2, index vals ik.1)) <$> imap pair cols)).
Proof.
  unfold zipObject, zip_keys, zip_values. cbn [truthy].
  rewrite mapM_as_key. cbn [mbind option_bind]. by rewrite foldl_fmap.
Qed.

Lemma zipObject_get (cols : list string) (vals : list JsVal) (k : string) :
  NoDup cols →
  ∃ o, zipObject (JArr (JStr <$> cols)) (JArr vals) = Some o
    ∧ obj_get o k
      = from_option (λ j, index vals j.1) JUndefined
          (list_find (λ c, c = k) cols).
Proof.
  intros Hnd. rewrite zipObject_columns. eexists. split; [reflexivity|].
  assert (((λ ik : nat * string, (ik.2, index vals ik.1)) <$> imap pair cols).*1
          = cols) as Hkeys.
  { apply list_eq. intros i.
    rewrite !list_lookup_fmap, list_lookup_imap. by destruct (cols !! i). }
  destruct (list_find (λ c, c = k) cols) as [[j c]|] eqn:Hfind.
  - apply list_find_Some in Hfind as (Hj & -> & _). cbn.
    rewrite (foldl_set_get _ _ _ (index vals j)).
    + rewrite Hkeys, decide_True; [done|]. by eapply list_elem_of_lookup_2.
    + intros v ([i c'] & [= -> ->] & Hin)%list_elem_of_fmap.
      apply elem_of_lookup_imap in Hin as (i' & c'' & [= <- <-] & Hi).
      cbn in *. by rewrite (NoDup_lookup _ _ _ _ Hnd Hi Hj).
  - apply list_find_None in Hfind. cbn.
    rewrite (foldl_set_get _ _ _ JUndefined).
    + rewrite Hkeys. case_decide as Hin; [|done].
      rewrite Forall_forall in Hfind. by apply Hfind in Hin.
    + intros v ([i c'] & [= -> ->] & Hin)%list_elem_of_fmap.
      apply elem_of_lookup_imap in Hin as (i' & c'' & [= <- <-] & Hi).
      cbn in *. rewrite Forall_forall in Hfind.
      exfalso. eapply Hfind; [by eapply list_elem_of_lookup_2|done].
Qed.

Lemma row_of_series (fields : list (string * JsVal)) (cols : list string)
    (vals : list JsVal) (tags : option (list (string * JsVal))) :
  obj_get fields "columns" = JArr (JStr <$> cols) → NoDup cols →
  obj_get fields "tags" = opt_obj tags →
  ∃ r, row_of (JObj fields) (JArr vals) = Value (JObj r)
    ∧ ∀ k, obj_get r k = row_value cols vals tags k.
Proof.
  intros Hcols Hnd Htags. unfold row_of.
  cbn [get_prop of_exc mbind run_bind]. rewrite Hcols, Htags.
  destruct (zipObject_get cols vals "" Hnd) as (o & Ho & _). rewrite Ho.
  cbn [of_option mbind run_bind].
  destruct (extend_optional_some o tags) as [r Hr]. rewrite Hr.
  cbn [of_option mbind run_bind mret run_ret].
  exists r. split; [done|]. intros k.
  rewrite (extend_optional_get _ _ _ k Hr).
  destruct (zipObject_get cols vals k Hnd) as (o' & Ho' & Hk).
  assert (o' = o) as -> by congruence.
  unfold row_value. rewrite Hk. by destruct tags.
Qed.

Lemma series_rows_plain (fields : list (string * JsVal)) (cols : list string)
    (rows : list (list JsVal)) (tags : option (list (string * JsVal))) :
  obj_get fields "columns" = JArr (JStr <$> cols) → NoDup cols →
  obj_get fields "tags" = opt_obj tags →
  obj_get fields "values" = JArr (JArr <$> rows) →
  ∃ out, series_rows (JObj fields) = Value out
    ∧ Forall2 (λ vals o, ∃ r, o = JObj r
                 ∧ ∀ k, obj_get r k = row_value cols vals tags k) rows out.
Proof.
  intros Hcols Hnd Htags Hvals. unfold series_rows.
  cbn [get_prop of_exc mbind run_bind]. rewrite Hvals.
  cbn [collection_values of_option mbind run_bind].
  clear Hvals. induction rows as [|vals rows (out & Hout & Hall)].
  { exists []. by split. }
  destruct (row_of_series fields cols vals tags Hcols Hnd Htags)
    as (r & Hr & Hk).
  exists (JObj r :: out). csimpl. rewrite Hr. cbn [mbind run_bind].
  rewrite Hout. cbn [mbind run_bind mret run_ret]. split; [done|].
  constructor; [by exists r|done].
Qed.

Section Callbacks.
Context {R : Type} (cb : Callback R).

(** X15. For a reply with one result holding one series (columns with
    distinct names, a list of value rows, optional tags), [_parseResults]
    hands the callback no error and one list with one row object per
    value row, in order.  A row holds, for each tag of the series, the
    tag's value, and for each column that no tag shadows, the value at the
    column's position (undefined when the row is shorter). *)
Theorem parseResults_rows (result series : list (string * JsVal))
    (cols : list string) (rows : list (list JsVal))
    (tags : option (list (string * JsVal))) :
  obj_get result "series" = JArr [JObj series] →
  obj_get series "columns" = JArr (JStr <$> cols) → NoDup cols →
  obj_get series "values" = JArr (JArr <$> rows) →
  obj_get series "tags" = opt_obj tags →
  ∃ out,
    _parseResults (JArr [JObj result]) cb = Value (cb None (JArr [JArr out]))
    ∧ Forall2 (λ vals o, ∃ r, o = JObj r
                 ∧ ∀ k, obj_get r k = row_value cols vals tags k) rows out.
Proof.
  intros Hseries Hcols Hnd Hvals Htags.
  destruct (series_rows_plain series cols rows tags Hcols Hnd Htags Hvals)
    as (out & Hout & Hall).
  exists out. split; [|done]. unfold _parseResults.
  cbn [collection_values of_option mbind run_bind map_run result_rows
       get_prop of_exc].
  rewrite Hseries. cbn [truthy collection_values of_option mbind run_bind map_run].
  rewrite Hout. cbn [mbind run_bind mret run_ret concat]. by rewrite app_nil_r.
Qed.



Lemma result_rows_without_series (fields : list (string * JsVal)) :
  truthy (obj_get fields "series") = false →
  result_rows (JObj fields) = Value (JArr []).
Proof.
  intros Hfalsy. unfold result_rows. cbn [get_prop of_exc mbind run_bind].
  by rewrite Hfalsy.
Qed.

(** X17. A null or undefined entry in the array of results, after
    results without series, makes [_parseResults] throw a TypeError: the
    callback is not invoked. *)
Theorem parseResults_missing_result_throws (pre : list (list (string * JsVal)))
    (x : JsVal) (post : list JsVal) :
  Forall (λ fields, truthy (obj_get fields "series") = false) pre →
  x = JNull ∨ x = JUndefined →
  ∃ msg,
    _parseResults (JArr ((JObj <$> pre) ++ x :: post)) cb
    = Raised (TypeError msg).
Proof.
  intros Hpre Hx. unfold _parseResults.
  cbn [collection_values of_option mbind run_bind].
  assert (∃ msg, map_run result_rows ((JObj <$> pre) ++ x :: post)
                 = Raised (TypeError msg)) as [msg ->]; [|by eexists].
  induction Hpre as [|fields pre Hfalsy _ [msg IH]]; csimpl.
  - destruct Hx as [-> | ->]; by eexists.
  - rewrite (result_rows_without_series _ Hfalsy).
    cbn [mbind run_bind]. rewrite IH. by eexists.
Qed.
End Callbacks.
End ParseResults.

(** ** Replies to [query] and [getDatabaseNames] *)

Section ReplyHandlers.
Import Influx.
Context {R : Type} (cb : Callback R).

(** X18. [query] on a 2xx reply that carries no [results] (a body that
    is text, an array, or an object without that property): the caller's
    callback receives no error and an empty list of results. *)
Theorem query_reply_without_results (res : Response) (body : JsVal) :
  200 ≤ statusCode res < 300 →
  body ≠ JUndefined → body ≠ JNull →
  results_of body = JUndefined →
  _parseCallback (Some (query_handler cb)) None res body
  = Ret (Some (Value (cb None (JArr [])))).
Proof.
  intros Hok Hu Hn Hres.
  rewrite (parseCallback_delivers_results _ _ _ Hok Hu Hn) by (by rewrite Hres).
  by rewrite Hres.
Qed.

Lemma first_columns (rows : list (list JsVal)) :
  map_run (λ a, elem a 0) (JArr <$> rows)
  = Value ((λ row, index row 0) <$> rows).
Proof.
  induction rows as [|row rows IH]; [done|]. csimpl.
  cbn [elem mbind run_bind]. by rewrite IH.
Qed.

(** X19. [getDatabaseNames] on results whose first result has a first
    series: the callback receives the first value of every row of that
    series, in order, and the empty list when the series has no [values]
    at all (a server without databases). *)
Theorem databaseNames_from_first_series (first series : list (string * JsVal))
    (more_results more_series : list JsVal) (rows : option (list (list JsVal))) :
  obj_get first "series" = JArr (JObj series :: more_series) →
  obj_get series "values"
  = match rows with Some l => JArr (JArr <$> l) | None => JUndefined end →
  databaseNames_handler cb None (JArr (JObj first :: more_results))
  = Value (cb None (JArr ((λ row, index row 0) <$> default [] rows))).
Proof.
  intros Hseries Hvalues. unfold databaseNames_handler.
  cbn [elem index lookup list_lookup default from_option id mbind run_bind
       get_prop of_exc].
  rewrite Hseries.
  cbn [elem index lookup list_lookup default from_option id mbind run_bind
       get_prop of_exc].
  rewrite Hvalues. destruct rows as [l|]; [|done].
  cbn [collection_values of_option mbind run_bind default from_option].
  by rewrite first_columns.
Qed.

(** X20. [getDatabaseNames] on results whose first result has no
    [series], or on an empty array of results, throws a TypeError instead
    of invoking the callback. *)
Theorem databaseNames_without_series_throws (results : list JsVal) :
  results = []
  ∨ (∃ first more, results = JObj first :: more
                   ∧ obj_get first "series" = JUndefined) →
  ∃ msg,
    databaseNames_handler cb None (JArr results) = Raised (TypeError msg).
Proof.
  intros [-> | (first & more & -> & Hseries)]; [by eexists|].
  unfold databaseNames_handler.
  cbn [elem index lookup list_lookup default from_option id mbind run_bind
       get_prop of_exc].
  rewrite Hseries. by eexists.
Qed.
End ReplyHandlers.

(** ** Tag strings *)

Section TagStrings.
Variable to_string : JsVal → string.

Lemma string_app_cons (x : ascii) (s t : string) :
  String x s +:+ t = String x (s +:+ t).
Proof. reflexivity. Qed.

Lemma string_app_nil (t : string) : EmptyString +:+ t = t.
Proof. reflexivity. Qed.

Lemma string_app_assoc (s t u : string) : (s +:+ t) +:+ u = s +:+ (t +:+ u).
Proof.
  induction s as [|x s IH]; [done|]. rewrite !string_app_cons. by rewrite IH.
Qed.

Lemma replace_all_app (c : ascii) (by_ s1 s2 : string) :
  replace_all c by_ (s1 +:+ s2)
  = replace_all c by_ s1 +:+ replace_all c by_ s2.
Proof.
  induction s1 as [|x s1 IH]; [done|].
  rewrite string_app_cons. cbn [replace_all]. rewrite IH.
  destruct (Ascii.eqb x c); [by rewrite string_app_assoc|done].
Qed.

Lemma escape_tag_value_chars (value : string) :
  escape_tag_value value = escape_chars value.
Proof.
  unfold escape_tag_value.
  induction value as [|x value IH]; [done|].
  cbn [replace_all escape_chars]. unfold escape_char.
  destruct (Ascii.eqb x " ") eqn:Hs.
  { apply Ascii.eqb_eq in Hs as ->. rewrite !replace_all_app, IH. done. }
  cbn [replace_all]. destruct (Ascii.eqb x ",") eqn:Hc.
  { apply Ascii.eqb_eq in Hc as ->. rewrite !replace_all_app, IH. done. }
  cbn [replace_all orb]. destruct (Ascii.eqb x "=") eqn:He.
  { apply Ascii.eqb_eq in He as ->. by rewrite IH. }
  by rewrite IH.
Qed.

Lemma obj_entries (fields : list (string * JsVal)) :
  NoDup fields.*1 →
  (λ k, (k, obj_get fields k)) <$> fields.*1 = fields.
Proof.
  induction fields as [|[k v] fields IH]; [done|]. csimpl.
  intros [Hnin Hnd]%NoDup_cons. rewrite String.eqb_refl. f_equal.
  rewrite <- (IH Hnd) at 2. apply list_fmap_ext. intros i k' Hk'.
  destruct (String.eqb k k') eqn:Hk; [|done].
  apply String.eqb_eq in Hk as <-. exfalso. apply Hnin.
  by eapply list_elem_of_lookup_2.
Qed.

Lemma tag_item_escaped (entry : string * JsVal) :
  tag_item to_string entry.1 entry.2 = escaped_item to_string entry.
Proof.
  destruct entry as [k v]. unfold tag_item, escaped_item. cbn [fst snd].
  destruct v; try done. by rewrite escape_tag_value_chars.
Qed.

(** An array index is written in one way only. *)
Lemma array_index_pretty (key : string) (n : N) :
  array_index key = Some n → pretty n = key.
Proof.
  unfold array_index. destruct (digits_value 0 key) as [m|]; [|done]. csimpl.
  destruct (String.eqb (pretty m) key) eqn:Hkey; [|done].
  apply String.eqb_eq in Hkey. destruct (m <? 4294967295)%N; [|done].
  by intros [= <-].
Qed.

#[local] Instance index_le_trans : Transitive index_le.
Proof. intros a b c. unfold index_le. lia. Qed.

#[local] Instance index_le_total : Total index_le.
Proof. intros a b. unfold index_le. lia. Qed.

(** Sorted array indices of distinct names are strictly ascending. *)
Lemma sorted_indices_ascend (l : list (string * JsVal)) :
  StronglySorted index_le l → NoDup l.*1 →
  Forall (λ kv, is_Some (array_index kv.1)) l →
  StronglySorted (λ a b, index_before a.1 b.1) l.
Proof.
  induction 1 as [|a l Hsorted IH Hhead]; [constructor|].
  csimpl. intros [Hnin Hnd]%NoDup_cons [[i Hi] Hall]%Forall_cons.
  constructor; [by apply IH|].
  apply Forall_forall. intros b Hb.
  pose proof (proj1 (Forall_forall _ _) Hhead b Hb) as Hle.
  pose proof (proj1 (Forall_forall _ _) Hall b Hb) as [j Hj].
  unfold index_le, index_of in Hle. unfold index_before.
  rewrite Hi, Hj in *. cbn [default] in Hle. unfold id in Hle.
  assert (i ≠ j); [|lia]. intros ->. apply Hnin.
  apply array_index_pretty in Hi, Hj. rewrite <- Hi, Hj.
  by apply list_elem_of_fmap_2.
Qed.

(** X21. [_createKeyTagString] on an object writes one [key=value] item
    per own property, joined by commas (a property named [length] like
    any other): first the properties whose names are array indices, in
    ascending order of the index, then the others in the order they were
    created, so all of them in that order when no name is an array
    index.  In a string value every space, comma and equals sign, and
    nothing else, gets a backslash in front, the three successive
    replacements amounting to one pass over the characters.  Keys are
    written as they are. *)
Theorem createKeyTagString_items (fields : list (string * JsVal)) :
  NoDup fields.*1 →
  (∃ indexed,
     indexed ≡ₚ filter (λ kv, is_Some (array_index kv.1)) fields
     ∧ StronglySorted (λ a b, index_before a.1 b.1) indexed
     ∧ _createKeyTagString to_string (JObj fields)
       = Some (String.concat ","
                 (escaped_item to_string
                    <$> indexed ++ filter (λ kv, array_index kv.1 = None) fields)))
  ∧ (Forall (λ kv, array_index kv.1 = None) fields →
     _createKeyTagString to_string (JObj fields)
     = Some (String.concat "," (escaped_item to_string <$> fields))).
Proof.
  intros Hnd.
  assert (_createKeyTagString to_string (JObj fields)
          = Some (String.concat ","
                    (escaped_item to_string
                       <$> merge_sort index_le
                             (filter (λ kv, is_Some (array_index kv.1)) fields)
                           ++ filter (λ kv, array_index kv.1 = None) fields)))
    as Hrun.
  { unfold _createKeyTagString, forOwn_entries, own_properties.
    cbn [truthy mbind option_bind]. rewrite (obj_entries _ Hnd).
    do 2 f_equal. apply list_fmap_ext. intros _ entry _.
    apply tag_item_escaped. }
  split.
  - exists (merge_sort index_le
              (filter (λ kv, is_Some (array_index kv.1)) fields)).
    split; [apply merge_sort_Permutation|]. split; [|exact Hrun].
    apply sorted_indices_ascend.
    + apply (StronglySorted_merge_sort _).
    + rewrite merge_sort_Permutation.
      eapply sublist_NoDup; [exact Hnd|].
      apply fmap_sublist, sublist_filter.
    + rewrite merge_sort_Permutation. apply Forall_forall.
      by intros entry [Hidx _]%list_elem_of_filter.
  - intros Hnone. rewrite Hrun.
    assert (filter (λ kv, is_Some (array_index kv.1)) fields = []) as ->.
    { clear Hrun Hnd. induction Hnone as [|entry l Hentry Hl IH]; [done|].
      rewrite filter_cons_False; [done|]. rewrite Hentry. by intros [? ?]. }
    assert (filter (λ kv, array_index kv.1 = None) fields = fields) as ->.
    { clear Hrun Hnd. induction Hnone as [|entry l Hentry Hl IH]; [done|].
      rewrite filter_cons_True by done. by rewrite IH. }
    done.
Qed.
End TagStrings.

Lemma unescape_from_escape_chars (pending : bool) (s : string) :
  unescape_from pending (escape_chars s)
  = (if pending then String "\" EmptyString else EmptyString) +:+ s.
Proof.
  revert pending. induction s as [|x s IH]; intros pending; [by destruct pending|].
  cbn [escape_chars]. unfold escape_char.
  destruct (Ascii.eqb x " " || Ascii.eqb x "," || Ascii.eqb x "=") eqn:Hsep.
  - rewrite !string_app_cons, string_app_nil. cbn [unescape_from].
    change (Ascii.eqb "\" " " || Ascii.eqb "\" "," || Ascii.eqb "\" "=")
      with false.
    rewrite Ascii.eqb_refl. cbn iota.
    destruct pending; cbn [unescape_from]; rewrite Hsep, IH; done.
  - rewrite string_app_cons, string_app_nil. cbn [unescape_from]. rewrite Hsep.
    destruct (Ascii.eqb x "\") eqn:Hb; destruct pending; rewrite IH;
      rewrite ?string_app_cons, ?string_app_nil; try done.
    + by apply Ascii.eqb_eq in Hb as ->.
    + by apply Ascii.eqb_eq in Hb as ->.
Qed.

Lemma unescape_escape_tag_value (v : string) :
  unescape (escape_tag_value v) = v.
Proof.
  unfold unescape.
  by rewrite escape_tag_value_chars, unescape_from_escape_chars.
Qed.

(** X22. The escaping of a tag value loses nothing: two values with the
    same escaped form are the same value, and reading the escaped form
    back, with the backslash before a space, a comma or an equals sign
    dropped, gives the value again. *)
Theorem escape_tag_value_injective (v1 v2 : string) :
  escape_tag_value v1 = escape_tag_value v2 →
  v1 = v2 ∧ unescape (escape_tag_value v1) = v1.
Proof.
  intros Heq. split; [|apply unescape_escape_tag_value].
  rewrite <- (unescape_escape_tag_value v1), <- (unescape_escape_tag_value v2).
  by rewrite Heq.
Qed.

(** ** A constructed client and its requests *)

Section ConstructedClient.
Import Influx.
Context {P R : Type}.
Variable new_pool : JsVal → P.
Variable pool_addHost : JsVal → JsVal → JsVal → P → P.
Variable url_parse : string → ParsedUrl.
Variable url_format : string → list (string * JsVal) → string.

(** X23. A client built from an options object sends, with every query
    that gives no options of its own, the credentials and the precision
    the constructor resolved: [u] and [p] are the caller's username and
    password, 'root' when not given; [precision] is the caller's
    timePrecision, 'ms' when not given, and is left out when that is
    falsy; [db] is the caller's database when that is truthy. *)
Theorem constructed_client_query_parameters (shared shared' : list JsVal)
    (fields : list (string * JsVal)) (db : InfluxDB P) (text : JsVal)
    (cb : Callback R) :
  constructor new_pool pool_addHost url_parse shared (JObj fields)
  = (shared', Ret db) →
  ∃ q,
    _queryDB url_format (_options db) text (AFn cb) None
    = Some {| get_url := url_format "query" q; get_json := true;
              get_reply := _parseCallback (Some cb) |}
    ∧ obj_get q "q" = text
    ∧ obj_get q "u"
      = (if is_undefined (obj_get fields "username") then JStr "root"
         else obj_get fields "username")
    ∧ obj_get q "p"
      = (if is_undefined (obj_get fields "password") then JStr "root"
         else obj_get fields "password")
    ∧ obj_get q "precision"
      = (if is_undefined (obj_get fields "timePrecision") then JStr "ms"
         else if truthy (obj_get fields "timePrecision")
         then obj_get fields "timePrecision" else JUndefined)
    ∧ obj_get q "db"
      = (if truthy (obj_get fields "database") then obj_get fields "database"
         else JUndefined).
Proof.
  intros Hrun.
  destruct (url_query_get (_options db) None (Some [("q", text)]))
    as (q & Hq & Hget).
  exists q. unfold _queryDB, _url. cbn [opt_obj] in Hq. rewrite Hq.
  split; [done|]. rewrite !Hget. cbn.
  rewrite !(constructor_options_get _ _ _ _ _ _ _ _ Hrun) by done.
  cbn. unfold or_configured. repeat split.
  - destruct (obj_get fields "timePrecision");
      cbn [is_undefined truthy negb]; rewrite ?andb_true_r; try done;
      by case_match.
  - destruct (obj_get fields "database");
      cbn [is_undefined truthy negb]; rewrite ?andb_true_r; try done;
      by case_match.
Qed.
End ConstructedClient.

(** ** Worked instances of the further properties *)

Lemma parseOptionsUrl_credentials_example :
  (Influx.auth (example_url_parse "influx") = Some "user:secret"
   ∧ "user:secret" ≠ ""
   ∧ Influx.pathname (example_url_parse "influx") = Some "/metrics")
  ∧ ∃ options,
      Influx.parseOptionsUrl example_url_parse "influx" = Ret options
      ∧ obj_get options "username" = JStr "user"
      ∧ obj_get options "password" = JStr "secret".
Proof.
  assert ("user:secret" ≠ "") as Hne by done.
  split; [by repeat split|].
  exact (parseOptionsUrl_credentials example_url_parse "influx"
           "user:secret" "/metrics" eq_refl Hne eq_refl).
Defined.

Lemma constructor_url_ignores_host_example :
  (Influx.SharedReachable example_new_pool example_addHost example_url_parse []
   ∧ Influx.pathname (example_url_parse "influx") = Some "/metrics")
  ∧ ∃ shared' db protocol,
      Influx.constructor example_new_pool example_addHost example_url_parse
        [] (JStr "influx") = (shared', Ret db)
      ∧ Influx._pool db = [(JStr "127.0.0.1", JNum 8086, protocol)]
      ∧ obj_get (Influx._options db) "host" = JStr "example.com".
Proof.
  split; [split; [apply Influx.shared_initial|reflexivity]|].
  destruct (constructor_url_ignores_host
              example_new_pool example_addHost example_url_parse
              [] "influx" "/metrics" (Influx.shared_initial _ _ _) eq_refl)
    as (shared' & db & protocol & Hrun & Hpool & Hhost & _).
  exists shared', db, protocol. split; [exact Hrun|].
  split; [exact Hpool|exact Hhost].
Defined.

Lemma constructor_options_resolved_example :
  (Influx.constructor example_new_pool example_addHost example_url_parse
     [] (JObj example_options) = (example_shared_after, Ret example_db)
   ∧ "username" ≠ "hosts")
  ∧ obj_get (Influx._options example_db) "username" = JStr "root"
  ∧ obj_get (Influx._options example_db) "port" = JNum 9999.
Proof.
  assert (Influx.constructor example_new_pool example_addHost
            example_url_parse [] (JObj example_options)
          = (example_shared_after, Ret example_db)) as Hrun by reflexivity.
  assert ("username" ≠ "hosts") as Hu by done.
  assert ("port" ≠ "hosts") as Hp by done.
  split; [by split|]. split.
  - exact (constructor_options_resolved example_new_pool example_addHost
             example_url_parse _ _ _ _ "username" Hrun Hu).
  - exact (constructor_options_resolved example_new_pool example_addHost
             example_url_parse _ _ _ _ "port" Hrun Hp).
Defined.

Lemma constructor_registers_listed_hosts_example :
  (obj_get example_listed_options "hosts" = JArr (JObj <$> example_listed)
   ∧ example_listed ≠ [])
  ∧ ∃ db,
      Influx.constructor example_new_pool example_addHost example_url_parse
        [] (JObj example_listed_options) = ([], Ret db)
      ∧ Influx._pool db
        = [(JStr "a.example", JNum 8086, JStr "http");
           (JStr "127.0.0.1", JNum 9000, JStr "https")].
Proof.
  assert (example_listed ≠ []) as Hne by done.
  split; [by split|].
  destruct (constructor_registers_listed_hosts
              example_new_pool example_addHost example_url_parse
              [] example_listed_options example_listed eq_refl Hne)
    as (db & Hrun & _ & Hpool).
  exists db. split; [exact Hrun|exact Hpool].
Defined.

Lemma constructor_rejects_hosts_not_array_example :
  (obj_get example_null_hosts_options "hosts" ≠ JUndefined
   ∧ isArray (obj_get example_null_hosts_options "hosts") = false)
  ∧ ∃ msg,
      Influx.constructor example_new_pool example_addHost example_url_parse
        [] (JObj example_null_hosts_options) = ([], Throw (TypeError msg)).
Proof.
  assert (obj_get example_null_hosts_options "hosts" ≠ JUndefined) as Hdef
    by done.
  split; [by split|].
  exact (constructor_rejects_hosts_not_array
           example_new_pool example_addHost example_url_parse
           [] example_null_hosts_options Hdef eq_refl).
Defined.

Lemma constructor_rejects_missing_host_entry_example :
  (obj_get example_broken_list_options "hosts"
   = JArr ((JObj <$> example_listed) ++ JNull :: [])
   ∧ (JNull = JNull ∨ JNull = JUndefined))
  ∧ ∃ msg,
      Influx.constructor example_new_pool example_addHost example_url_parse
        [] (JObj example_broken_list_options) = ([], Throw (TypeError msg)).
Proof.
  split; [split; [reflexivity|by left]|].
  exact (constructor_rejects_missing_host_entry
           example_new_pool example_addHost example_url_parse
           [] example_broken_list_options example_listed JNull []
           eq_refl (or_introl eq_refl)).
Defined.

Lemma constructor_reuses_first_descriptor_example :
  (obj_get example_options "hosts" = JUndefined
   ∧ obj_get example_second_options "hosts" = JUndefined)
  ∧ ∃ d db2,
      Influx.constructor example_new_pool example_addHost example_url_parse
        [JObj d] (JObj example_second_options) = ([JObj d], Ret db2)
      ∧ obj_get d "username" = JStr "root"
      ∧ Influx._pool db2 = [(JStr "127.0.0.1", JNum 8086, JStr "http")].
Proof.
  split; [by split|].
  destruct (constructor_reuses_first_descriptor
              example_new_pool example_addHost example_url_parse
              example_options example_second_options eq_refl eq_refl)
    as (d & db1 & db2 & _ & Hrun2 & Hproto & Huser & _ & Hpool).
  exists d, db2. split; [exact Hrun2|]. split; [exact Huser|].
  rewrite Hpool, Hproto. reflexivity.
Defined.

Lemma parseCallback_reports_first_error_example :
  (200 ≤ Influx.statusCode example_ok < 300
   ∧ obj_get example_error_body "results"
     = JArr ([JObj []] ++ JObj [("error", JStr "boom")]
               :: [JObj [("error", JStr "later")]])
   ∧ Forall (λ y, Influx.nonempty_error y = None) [JObj []]
   ∧ Influx.nonempty_error (JObj [("error", JStr "boom")]) = Some (JStr "boom"))
  ∧ Influx._parseCallback (Some example_callback) None example_ok
      (JObj example_error_body)
    = Ret (Some (Some (NewError (JStr "boom")), JUndefined)).
Proof.
  assert (200 ≤ Influx.statusCode example_ok < 300) as Hok by (simpl; lia).
  assert (Forall (λ y, Influx.nonempty_error y = None) [JObj []]) as Hpre
    by (by repeat constructor).
  split; [by repeat split|].
  exact (parseCallback_reports_first_error example_callback example_ok
           example_error_body [JObj []] (JObj [("error", JStr "boom")])
           [JObj [("error", JStr "later")]] (JStr "boom")
           Hok eq_refl Hpre eq_refl).
Defined.

Lemma parseCallback_error_status_message_example :
  ((Influx.statusCode example_unavailable < 200
    ∨ 300 ≤ Influx.statusCode example_unavailable)
   ∧ JStr "Service Unavailable" ≠ JUndefined
   ∧ JStr "Service Unavailable" ≠ JNull)
  ∧ Influx._parseCallback (Some example_callback) None example_unavailable
      (JStr "Service Unavailable")
    = Ret (Some (Some (NewError (JStr "Service Unavailable")), JUndefined)).
Proof.
  assert (Influx.statusCode example_unavailable < 200
          ∨ 300 ≤ Influx.statusCode example_unavailable) as Hst
    by (right; simpl; lia).
  assert (JStr "Service Unavailable" ≠ JUndefined) as Hu by done.
  assert (JStr "Service Unavailable" ≠ JNull) as Hn by done.
  split; [by repeat split|].
  exact (parseCallback_error_status_message example_callback
           example_unavailable (JStr "Service Unavailable") Hst Hu Hn).
Defined.

Lemma parseCallback_success_without_results_array_example :
  (200 ≤ Influx.statusCode example_ok < 300
   ∧ JStr "ok" ≠ JUndefined ∧ JStr "ok" ≠ JNull
   ∧ isArray (Influx.results_of (JStr "ok")) = false)
  ∧ Influx._parseCallback (Some example_callback) None example_ok (JStr "ok")
    = Ret (Some (None, JUndefined)).
Proof.
  assert (200 ≤ Influx.statusCode example_ok < 300) as Hok by (simpl; lia).
  assert (JStr "ok" ≠ JUndefined) as Hu by done.
  assert (JStr "ok" ≠ JNull) as Hn by done.
  split; [by repeat split|].
  exact (parseCallback_success_without_results_array example_callback
           example_ok (JStr "ok") Hok Hu Hn eq_refl).
Defined.

Lemma parseResults_rows_example :
  (obj_get example_result "series" = JArr [JObj example_series]
   ∧ obj_get example_series "columns" = JArr (JStr <$> ["time"; "value"])
   ∧ NoDup ["time"; "value"]
   ∧ obj_get example_series "values"
     = JArr (JArr <$> [[JNum 1; JNum 67]; [JNum 2]])
   ∧ obj_get example_series "tags"
     = opt_obj (Some [("host", JStr "server01")]))
  ∧ ∃ r1 r2,
      _parseResults (JArr [JObj example_result]) example_callback
      = Value (None, JArr [JArr [JObj r1; JObj r2]])
      ∧ obj_get r1 "value" = JNum 67
      ∧ obj_get r2 "value" = JUndefined
      ∧ obj_get r2 "host" = JStr "server01".
Proof.
  assert (NoDup ["time"; "value"]) as Hnd
    by (apply (bool_decide_unpack _); by vm_compute).
  split; [by repeat split|].
  destruct (parseResults_rows example_callback example_result example_series
              ["time"; "value"] [[JNum 1; JNum 67]; [JNum 2]]
              (Some [("host", JStr "server01")])
              eq_refl eq_refl Hnd eq_refl eq_refl)
    as (out & Hrun & Hrows).
  apply Forall2_cons_inv_l in Hrows as (o1 & out1 & (r1 & -> & Hr1) & Hrows & ->).
  apply Forall2_cons_inv_l in Hrows as (o2 & out2 & (r2 & -> & Hr2) & Hrows & ->).
  apply Forall2_nil_inv_l in Hrows as ->.
  exists r1, r2. split; [exact Hrun|].
  split; [exact (Hr1 "value")|]. split; [exact (Hr2 "value")|exact (Hr2 "host")].
Defined.


Lemma parseResults_missing_result_throws_example :
  (Forall (λ fields, truthy (obj_get fields "series") = false) [[]]
   ∧ (JNull = JNull ∨ JNull = JUndefined))
  ∧ ∃ msg,
      _parseResults (JArr ((JObj <$> [[]]) ++ JNull :: [JObj example_result]))
        example_callback
      = Raised (TypeError msg).
Proof.
  assert (Forall (λ fields, truthy (obj_get fields "series") = false)
            [@nil (string * JsVal)]) as Hpre by (by repeat constructor).
  split; [split; [exact Hpre|by left]|].
  exact (parseResults_missing_result_throws example_callback [[]] JNull
           [JObj example_result] Hpre (or_introl eq_refl)).
Defined.

Lemma query_reply_without_results_example :
  (200 ≤ Influx.statusCode example_ok < 300
   ∧ JStr "<html>" ≠ JUndefined ∧ JStr "<html>" ≠ JNull
   ∧ Influx.results_of (JStr "<html>") = JUndefined)
  ∧ Influx._parseCallback (Some (query_handler example_callback)) None
      example_ok (JStr "<html>")
    = Ret (Some (Value (None, JArr []))).
Proof.
  assert (200 ≤ Influx.statusCode example_ok < 300) as Hok by (simpl; lia).
  assert (JStr "<html>" ≠ JUndefined) as Hu by done.
  assert (JStr "<html>" ≠ JNull) as Hn by done.
  split; [by repeat split|].
  exact (query_reply_without_results example_callback example_ok
           (JStr "<html>") Hok Hu Hn eq_refl).
Defined.

Lemma databaseNames_from_first_series_example :
  (obj_get [("series", JArr [JObj example_databases])] "series"
   = JArr (JObj example_databases :: [])
   ∧ obj_get example_databases "values"
     = JArr (JArr <$> [[JStr "_internal"]; [JStr "metrics"]]))
  ∧ databaseNames_handler example_callback None
      (JArr [JObj [("series", JArr [JObj example_databases])]])
    = Value (None, JArr [JStr "_internal"; JStr "metrics"]).
Proof.
  split; [by split|].
  exact (databaseNames_from_first_series example_callback
           [("series", JArr [JObj example_databases])] example_databases
           [] [] (Some [[JStr "_internal"]; [JStr "metrics"]])
           eq_refl eq_refl).
Defined.

Lemma databaseNames_without_series_throws_example :
  ([JObj []] = []
   ∨ (∃ first more, [JObj []] = JObj first :: more
                    ∧ obj_get first "series" = JUndefined))
  ∧ ∃ msg,
      databaseNames_handler example_callback None (JArr [JObj []])
      = Raised (TypeError msg).
Proof.
  assert ([JObj []] = []
          ∨ (∃ first more, [JObj []] = JObj first :: more
                           ∧ obj_get first "series" = JUndefined)) as Hshape.
  { right. exists [], []. by split. }
  split; [exact Hshape|].
  exact (databaseNames_without_series_throws example_callback [JObj []] Hshape).
Defined.

Lemma createKeyTagString_items_example :
  (NoDup example_tags.*1
   ∧ Forall (λ kv, array_index kv.1 = None) example_tags)
  ∧ _createKeyTagString example_to_string (JObj example_tags)
    = Some "host=server\ 01,length=3,zone=a\=b\,c".
Proof.
  assert (NoDup example_tags.*1) as Hnd
    by (apply (bool_decide_unpack _); by vm_compute).
  assert (Forall (λ kv, array_index kv.1 = None) example_tags) as Hnone
    by (repeat constructor).
  split; [by split|].
  rewrite (proj2 (createKeyTagString_items example_to_string example_tags Hnd)
             Hnone).
  reflexivity.
Defined.

(** Names that are array indices come first, the smaller index before
    the larger; [01] is not the way a number is written and stays where
    it was created. *)
Lemma createKeyTagString_numbered_example :
  _createKeyTagString example_to_string (JObj example_numbered_tags)
  = Some "2=y,10=x,zone=a,01=z".
Proof. reflexivity. Qed.

Lemma escape_tag_value_injective_example :
  escape_tag_value "a b" = escape_tag_value "a b"
  ∧ unescape (escape_tag_value "a b") = "a b".
Proof.
  split; [reflexivity|].
  exact (proj2 (escape_tag_value_injective "a b" "a b" eq_refl)).
Defined.

Lemma constructed_client_query_parameters_example :
  Influx.constructor example_new_pool example_addHost example_url_parse
    [] (JObj example_options) = (example_shared_after, Ret example_db)
  ∧ ∃ q,
      _queryDB (λ endpoint _, endpoint) (Influx._options example_db)
        (JStr "show databases") (AFn example_callback) None
      = Some {| get_url := "query"; get_json := true;
                get_reply := Influx._parseCallback (Some example_callback) |}
      ∧ obj_get q "u" = JStr "root"
      ∧ obj_get q "precision" = JStr "ms".
Proof.
  assert (Influx.constructor example_new_pool example_addHost
            example_url_parse [] (JObj example_options)
          = (example_shared_after, Ret example_db)) as Hrun by reflexivity.
  split; [exact Hrun|].
  destruct (constructed_client_query_parameters
              example_new_pool example_addHost example_url_parse
              (λ endpoint _, endpoint) _ _ _ _ (JStr "show databases")
              example_callback Hrun)
    as (q & Hreq & _ & Hu & _ & Hprecision & _).
  exists q. split; [exact Hreq|]. split; [exact Hu|exact Hprecision].
Defined.
